(** * Camera pose and render-resource bookkeeping of manimlib/camera/camera.py

    A shallow embedding of the two classes of the module:
    - [CameraFrame]: the Euler triple, the derived inverse rotation matrix and
      the five control points of the frame;
    - [Camera]: the program cache, the texture cache, the static render index
      and the calls the camera makes into the graphics context.

    Numbers that the Python code holds as numpy float64 values are read as
    real numbers. *)

From Stdlib Require Import Reals Lra Lia ZArith List.
From Stdlib Require Import Strings.Byte.
From stdpp Require Import base gmap strings list fin_maps.

(** ** Helpers of the repository that camera.py imports *)

Module CameraFrame.

Local Open Scope R_scope.

(** A point or vector of 3-space, as a row of a numpy array. *)
Definition vec3 : Type := R * R * R.

(** A 3x3 matrix, stored as its three rows. *)
Definition mat3 : Type := vec3 * vec3 * vec3.

(** A quaternion [w, x, y, z]. *)
Definition quat : Type := R * R * R * R.

(** Modelled from the spec: the constants module (manimlib.constants) is not
    among the sources.  Angles are stored in radians, so the unit RADIANS
    is 1. *)
Definition RADIANS : R := 1.

(** Modelled from the spec: the constants module is not among the sources.
    DEGREES is the factor that converts an angle in degrees to radians. *)
Definition DEGREES : R := 2 * PI / 360.

(** Modelled from the spec: [clip] of manimlib.utils.simple_functions is not
    among the sources.  The spec calls it a saturating clamp of a value into
    a closed interval. *)
Definition clip (a min_a max_a : R) : R :=
  if Rlt_dec a min_a then min_a
  else if Rgt_dec a max_a then max_a
  else a.

(** The helpers of manimlib.utils.space_ops and the two axes of
    manimlib.constants that the frame uses.  Neither module is among the
    sources, so the frame is written against their interface.  Only the
    round trip of [rotate] depends on how they compute; it is stated for
    the instance [usual_ops] below. *)
Class SpaceOps : Type := {
  OUT : vec3;
  RIGHT : vec3;
  quaternion_mult : list quat -> quat;
  quaternion_from_angle_axis : R -> vec3 -> bool -> quat;
  rotation_matrix_transpose_from_quaternion : quat -> mat3;
  rotation_matrix_transpose : R -> vec3 -> mat3;
  angle_of_vector : list R -> R
}.

(** *** numpy operations on 3x3 arrays *)

Definition vdot (u v : vec3) : R :=
  let '(u0, u1, u2) := u in
  let '(v0, v1, v2) := v in
  u0 * v0 + u1 * v1 + u2 * v2.

(** [m.T] *)
Definition transpose (m : mat3) : mat3 :=
  let '((a00, a01, a02), (a10, a11, a12), (a20, a21, a22)) := m in
  ((a00, a10, a20), (a01, a11, a21), (a02, a12, a22)).

(** [np.dot(a, b)] on two 3x3 arrays: row i of the result pairs row i of [a]
    with the columns of [b]. *)
Definition dot (a b : mat3) : mat3 :=
  let '(r0, r1, r2) := a in
  let '(c0, c1, c2) := transpose b in
  ((vdot r0 c0, vdot r0 c1, vdot r0 c2),
   (vdot r1 c0, vdot r1 c1, vdot r1 c2),
   (vdot r2 c0, vdot r2 c1, vdot r2 c2)).

(** [m[2]] *)
Definition row2 (m : mat3) : vec3 := snd m.

(** [m[:, 0]] *)
Definition col0 (m : mat3) : list R :=
  let '((a00, _, _), (a10, _, _), (a20, _, _)) := m in [a00; a10; a20].

(** [v[2]] and [v[:2]] *)
Definition item2 (v : vec3) : R := snd v.
Definition take2 (v : vec3) : list R := let '(x, y, _) := v in [x; y].

(** ** class CameraFrame *)

(** The part of the object that the methods of the class read and write:
    [data["points"]], [data["euler_angles"]], the attribute
    [inverse_camera_rotation_matrix] and the configured [focal_distance]. *)
Record t : Type := mk {
  points : list vec3;
  euler_angles : R * R * R;
  inverse_camera_rotation_matrix : mat3;
  focal_distance : R
}.

Definition theta_of (f : t) : R := fst (fst (euler_angles f)).
Definition phi_of (f : t) : R := snd (fst (euler_angles f)).
Definition gamma_of (f : t) : R := snd (euler_angles f).

Definition set_matrix (m : mat3) (f : t) : t :=
  mk (points f) (euler_angles f) m (focal_distance f).

Definition set_angles (a : R * R * R) (f : t) : t :=
  mk (points f) a (inverse_camera_rotation_matrix f) (focal_distance f).

(** What [set_euler_angles] stores in each of the three slots. *)
Definition stored (supplied : option R) (units old : R) : R :=
  match supplied with
  | Some x => x * units
  | None => old
  end.

Section Methods.
Context `{SpaceOps}.

Definition get_euler_angles (f : t) : R * R * R := euler_angles f.

Definition get_inverse_camera_rotation_matrix (f : t) : mat3 :=
  inverse_camera_rotation_matrix f.

Definition refresh_rotation_matrix (f : t) : t :=
  let '(theta, phi, gamma) := get_euler_angles f in
  let quat := quaternion_mult
    [ quaternion_from_angle_axis theta OUT true;
      quaternion_from_angle_axis phi RIGHT true;
      quaternion_from_angle_axis gamma OUT true ] in
  set_matrix (rotation_matrix_transpose_from_quaternion quat) f.

(** An argument left at [None] keeps the stored angle. *)
Definition set_euler_angles (theta phi gamma : option R) (units : R) (f : t) : t :=
  let f1 := match theta with
            | Some th => set_angles (th * units, phi_of f, gamma_of f) f
            | None => f
            end in
  let f2 := match phi with
            | Some ph => set_angles (theta_of f1, ph * units, gamma_of f1) f1
            | None => f1
            end in
  let f3 := match gamma with
            | Some ga => set_angles (theta_of f2, phi_of f2, ga * units) f2
            | None => f2
            end in
  refresh_rotation_matrix f3.

Definition rotate (angle : R) (axis : vec3) (f : t) : t :=
  let curr_rot_T := get_inverse_camera_rotation_matrix f in
  let added_rot_T := rotation_matrix_transpose angle axis in
  let new_rot_T := dot curr_rot_T added_rot_T in
  let Fz := row2 new_rot_T in
  let phi := acos (clip (item2 Fz) (-1) 1) in
  let theta := angle_of_vector (take2 Fz) + PI / 2 in
  let partial_rot_T := dot (rotation_matrix_transpose phi RIGHT)
                           (rotation_matrix_transpose theta OUT) in
  let gamma := angle_of_vector (col0 (dot partial_rot_T (transpose new_rot_T))) in
  set_euler_angles (Some theta) (Some phi) (Some gamma) RADIANS f.

Definition reorient (theta_degrees phi_degrees gamma_degrees : option R) (f : t) : t :=
  set_euler_angles theta_degrees phi_degrees gamma_degrees DEGREES f.

Definition set_theta (theta : R) (f : t) : t :=
  set_euler_angles (Some theta) None None RADIANS f.

Definition set_phi (phi : R) (f : t) : t :=
  set_euler_angles None (Some phi) None RADIANS f.

Definition set_gamma (gamma : R) (f : t) : t :=
  set_euler_angles None None (Some gamma) RADIANS f.

Definition increment_theta (dtheta : R) (f : t) : t :=
  refresh_rotation_matrix
    (set_angles (theta_of f + dtheta, phi_of f, gamma_of f) f).

Definition increment_phi (dphi : R) (f : t) : t :=
  let phi := phi_of f in
  let new_phi := clip (phi + dphi) 0 PI in
  refresh_rotation_matrix (set_angles (theta_of f, new_phi, gamma_of f) f).

Definition increment_gamma (dgamma : R) (f : t) : t :=
  refresh_rotation_matrix
    (set_angles (theta_of f, phi_of f, gamma_of f + dgamma) f).

(** [points[i, j]]: an index outside the array raises IndexError, here
    [None]. *)
Definition coord (v : vec3) (j : nat) : option R :=
  let '(x, y, z) := v in
  match j with
  | O => Some x
  | S O => Some y
  | S (S O) => Some z
  | _ => None
  end.

Definition point_coord (pts : list vec3) (i j : nat) : option R :=
  match nth_error pts i with
  | Some v => coord v j
  | None => None
  end.

Definition get_points (f : t) : list vec3 := points f.

Definition get_width (f : t) : option R :=
  let points := get_points f in
  match point_coord points 2 0, point_coord points 1 0 with
  | Some a, Some b => Some (a - b)
  | _, _ => None
  end.

Definition get_height (f : t) : option R :=
  let points := get_points f in
  match point_coord points 4 1, point_coord points 3 1 with
  | Some a, Some b => Some (a - b)
  | _, _ => None
  end.

Definition get_shape (f : t) : option (R * R) :=
  match get_width f, get_height f with
  | Some w, Some h => Some (w, h)
  | _, _ => None
  end.

Definition get_center (f : t) : option vec3 := nth_error (get_points f) 0.

Definition get_focal_distance (f : t) : option R :=
  match get_height f with
  | Some h => Some (focal_distance f * h)
  | None => None
  end.

(** The pose-mutating calls, as data, so that a sequence of calls can be
    replayed. *)
Inductive pose_op : Type :=
| SetEulerAngles (theta phi gamma : option R) (units : R)
| Reorient (theta_degrees phi_degrees gamma_degrees : option R)
| SetTheta (theta : R)
| SetPhi (phi : R)
| SetGamma (gamma : R)
| IncrementTheta (dtheta : R)
| IncrementPhi (dphi : R)
| IncrementGamma (dgamma : R)
| Rotate (angle : R) (axis : vec3).

Definition run_op (o : pose_op) (f : t) : t :=
  match o with
  | SetEulerAngles th ph ga u => set_euler_angles th ph ga u f
  | Reorient th ph ga => reorient th ph ga f
  | SetTheta th => set_theta th f
  | SetPhi ph => set_phi ph f
  | SetGamma ga => set_gamma ga f
  | IncrementTheta d => increment_theta d f
  | IncrementPhi d => increment_phi d f
  | IncrementGamma d => increment_gamma d f
  | Rotate a ax => rotate a ax f
  end.

(** The calls are made in list order, the first element first. *)
Definition run_ops (os : list pose_op) (f : t) : t :=
  fold_left (fun g o => run_op o g) os f.

(** The matrix of a triple, in the words of the spec: compose the quaternion
    rotations theta about OUT, phi about RIGHT and gamma about OUT, and take
    the transposed rotation matrix of the product. *)
Definition matrix_of_triple (theta phi gamma : R) : mat3 :=
  rotation_matrix_transpose_from_quaternion
    (quaternion_mult
       [ quaternion_from_angle_axis theta OUT true;
         quaternion_from_angle_axis phi RIGHT true;
         quaternion_from_angle_axis gamma OUT true ]).

(** The phi that a call stores without looking at the old one, if any. *)
Definition phi_supplied (o : pose_op) : option R :=
  match o with
  | SetEulerAngles _ (Some ph) _ u => Some (ph * u)
  | Reorient _ (Some ph) _ => Some (ph * DEGREES)
  | SetPhi ph => Some (ph * RADIANS)
  | _ => None
  end.

Definition phi_in_range (x : R) : Prop := 0 <= x <= PI.

Definition supplies_phi_in_range (o : pose_op) : Prop :=
  match phi_supplied o with
  | Some x => phi_in_range x
  | None => True
  end.

(** A call of [set_euler_angles] as data: the three optional angles and the
    unit. *)
Definition euler_call : Type := option R * option R * option R * R.

Definition run_call (c : euler_call) (f : t) : t :=
  let '(th, ph, ga, u) := c in set_euler_angles th ph ga u f.

Definition run_calls (cs : list euler_call) (f : t) : t :=
  fold_left (fun g c => run_call c g) cs f.

(** [increment_phi] called once per element of [ds], in list order. *)
Definition increment_phis (ds : list R) (f : t) : t :=
  fold_left (fun g d => increment_phi d g) ds f.

Definition Rsum (ds : list R) : R := fold_right Rplus 0 ds.

End Methods.

(** *** One instance of the interface

    Modelled from the spec: manimlib.utils.space_ops is not among the
    sources.  The spec has the frame compose quaternion rotations about OUT
    and RIGHT, convert the product to a transposed rotation matrix and take
    the angle of a planar vector; the instance writes these out with the
    usual quaternion formulas, so that the frame can be run on concrete
    inputs and its matrices compared. *)

Definition qmul (p q : quat) : quat :=
  let '(w1, x1, y1, z1) := p in
  let '(w2, x2, y2, z2) := q in
  (w1 * w2 - x1 * x2 - y1 * y2 - z1 * z2,
   w1 * x2 + x1 * w2 + y1 * z2 - z1 * y2,
   w1 * y2 + y1 * w2 + z1 * x2 - x1 * z2,
   w1 * z2 + z1 * w2 + x1 * y2 - y1 * x2).

Definition qconj (q : quat) : quat :=
  let '(w, x, y, z) := q in (w, - x, - y, - z).

Definition qvec (q : quat) : vec3 :=
  let '(_, x, y, z) := q in (x, y, z).

Definition normalize (v : vec3) : vec3 :=
  let '(x, y, z) := v in
  let n := sqrt (x * x + y * y + z * z) in
  if Rgt_dec n 0 then (x / n, y / n, z / n) else (0, 0, 0).

Definition usual_quaternion_mult (qs : list quat) : quat :=
  match qs with
  | [] => (1, 0, 0, 0)
  | q :: rest => fold_left qmul rest q
  end.

Definition usual_quaternion_from_angle_axis (angle : R) (axis : vec3)
    (axis_normalized : bool) : quat :=
  let '(x, y, z) := if axis_normalized then axis else normalize axis in
  (cos (angle / 2), sin (angle / 2) * x, sin (angle / 2) * y,
   sin (angle / 2) * z).

Definition usual_matrix_from_quaternion (q : quat) : mat3 :=
  let image (b : vec3) : vec3 :=
    let '(bx, by_, bz) := b in
    qvec (qmul (qmul q (0, bx, by_, bz)) (qconj q)) in
  (image (1, 0, 0), image (0, 1, 0), image (0, 0, 1)).

(** The transposed matrix of the rotation by [angle] about [axis].  An axis
    along z, the zero axis included, takes a shortcut: the rotation about
    +z, or about -z unless the third coordinate is positive. *)
Definition usual_rotation_matrix_transpose (angle : R) (axis : vec3) : mat3 :=
  let '(x, y, z) := axis in
  if Req_dec_T x 0 then
    if Req_dec_T y 0 then
      let sgn := if Rgt_dec z 0 then 1 else -1 in
      let cos_a := cos angle in
      let sin_a := sin angle * sgn in
      ((cos_a, sin_a, 0), (- sin_a, cos_a, 0), (0, 0, 1))
    else usual_matrix_from_quaternion
           (usual_quaternion_from_angle_axis angle axis false)
  else usual_matrix_from_quaternion
         (usual_quaternion_from_angle_axis angle axis false).

Definition usual_angle_of_vector (v : list R) : R :=
  match v with
  | x :: y :: _ =>
      if Rgt_dec x 0 then atan (y / x)
      else if Rlt_dec x 0 then
        (if Rle_dec 0 y then atan (y / x) + PI else atan (y / x) - PI)
      else if Rgt_dec y 0 then PI / 2
      else if Rlt_dec y 0 then - (PI / 2)
      else 0
  | _ => 0
  end.

Definition usual_ops : SpaceOps := {|
  OUT := (0, 0, 1);
  RIGHT := (1, 0, 0);
  quaternion_mult := usual_quaternion_mult;
  quaternion_from_angle_axis := usual_quaternion_from_angle_axis;
  rotation_matrix_transpose_from_quaternion := usual_matrix_from_quaternion;
  rotation_matrix_transpose := usual_rotation_matrix_transpose;
  angle_of_vector := usual_angle_of_vector
|}.

(** *** Rotation matrices

    What the round trip of [rotate] is measured against. *)

Definition I3 : mat3 := ((1, 0, 0), (0, 1, 0), (0, 0, 1)).

Definition det (m : mat3) : R :=
  let '((a00, a01, a02), (a10, a11, a12), (a20, a21, a22)) := m in
  a00 * (a11 * a22 - a12 * a21)
  - a01 * (a10 * a22 - a12 * a20)
  + a02 * (a10 * a21 - a11 * a20).

(** An orthogonal matrix of determinant 1. *)
Definition is_rotation (m : mat3) : Prop :=
  dot m (transpose m) = I3 /\ dot (transpose m) m = I3 /\ det m = 1.

(** The transposed matrices of the rotations about z and about x. *)
Definition Rz_T (a : R) : mat3 :=
  ((cos a, sin a, 0), (- sin a, cos a, 0), (0, 0, 1)).

Definition Rx_T (a : R) : mat3 :=
  ((1, 0, 0), (0, cos a, sin a), (0, - sin a, cos a)).

(** The squared norm of a quaternion. *)
Definition qnorm2 (q : quat) : R :=
  let '(w, x, y, z) := q in w * w + x * x + y * y + z * z.

(** A frame of 16 by 9 units around the origin, looking down the z axis. *)
Definition sample_frame : t :=
  @refresh_rotation_matrix usual_ops
    (mk [ (0, 0, 0); (-8, 0, 0); (8, 0, 0); (0, -9 / 2, 0); (0, 9 / 2, 0) ]
        (0, 0, 0)
        ((1, 0, 0), (0, 1, 0), (0, 0, 1))
        2).

(** A frame that has lost all but two of its control points. *)
Definition two_point_frame : t :=
  mk [ (0, 0, 0); (-8, 0, 0) ] (0, 0, 0) ((1, 0, 0), (0, 1, 0), (0, 0, 1)) 2.

End CameraFrame.

(** ** class Camera *)

Module Camera.

(** *** What the camera is handed by its collaborators *)

(** A uniform value: a Python int, a float, a tuple of floats or a numpy
    array of floats. *)
Inductive value : Type :=
| VInt (n : Z)
| VFloat (x : R)
| VTuple (xs : list R)
| VArray (xs : list R).

(** Keyword arguments of [ctx.program]: shader stage name and source. *)
Definition program_code : Type := list (string * string).

(** Modelled from the spec: the shader unit (manimlib.shader_wrapper) is not
    among the sources.  It exposes raw vertex bytes, optional index data, a
    vertex attribute layout, a mapping of uniform name to value, a mapping of
    uniform name to texture path, a primitive topology, a depth-test flag and
    a program signature with the program source it stands for.  The two
    mappings are kept in the order in which [items()] yields them. *)
Record shader_wrapper : Type := {
  vert_data : list byte;
  vert_indices : option (list Z);
  vert_attributes : list string;
  uniforms : list (string * value);
  texture_paths : list (string * string);
  depth_test : bool;
  render_primitive : Z;
  program_id : string;
  code : program_code
}.

Definition get_program_id (sw : shader_wrapper) : string := program_id sw.
Definition get_program_code (sw : shader_wrapper) : program_code := code sw.

(** Modelled from the spec: a drawable (manimlib.mobject) is not among the
    sources.  The camera uses its identity [id(mob)] and the list of shader
    units it exposes. *)
Record mobject : Type := {
  mob_id : nat;
  shader_wrapper_list : list shader_wrapper
}.

Definition get_shader_wrapper_list (mob : mobject) : list shader_wrapper :=
  shader_wrapper_list mob.

(** An image as PIL returns it after [convert("RGBA")]. *)
Record image : Type := {
  im_size : nat * nat;
  im_bands : list string;
  im_bytes : list byte
}.

(** What lies outside the program: the shader compiler of the graphics
    driver, which either fails or yields a program with a set of member
    names; moderngl's [detect_format]; and the image files on disk. *)
Class Driver : Type := {
  link_program : program_code -> option (gset string);
  detect_format : program_code -> list string -> string;
  open_image : string -> option image
}.

(** *** The graphics context *)

(** Objects the context has created, by the identity of the Python object. *)
Inductive gl_object : Type :=
| Buffer (data : list byte)
| VertexArray (program vbo : nat) (vert_format : string)
    (attributes : list string) (index_buffer : option nat)
| Texture (size : nat * nat) (components : nat) (data : list byte)
| Program (source : program_code) (members : gset string).

(** Calls that leave the process, the newest first. *)
Inductive event : Type :=
| CompileProgram (source : program_code)
| OpenImage (path : string)
| Draw (vao : nat) (primitive : Z).

Record context : Type := mk_context {
  next_id : nat;
  objects : gmap nat gl_object;
  live : gset nat;
  uniform_values : gmap (nat * string) value;
  texture_units : gmap nat nat;
  depth_testing : bool;
  events : list event
}.

(** A group of buffers, a program and the shader unit they draw. *)
Record render_group : Type := {
  vbo : nat;
  ibo : option nat;
  vao : nat;
  prog : nat;
  shader_wrapper_of : shader_wrapper;
  single_use : bool
}.

(** The attributes of a camera that the methods below read and write.  An
    entry [None] of [id_to_shader_program] is a key mapped to Python's
    [None]. *)
Record t : Type := mk {
  ctx : context;
  static_mobject_to_render_group_list : gmap nat (list render_group);
  id_to_shader_program : gmap string (option (nat * string));
  perspective_uniforms : list (string * value);
  n_textures : nat;
  path_to_texture : gmap string (nat * nat)
}.

Definition with_ctx (x : context) (c : t) : t :=
  mk x (static_mobject_to_render_group_list c) (id_to_shader_program c)
     (perspective_uniforms c) (n_textures c) (path_to_texture c).

Definition with_static (m : gmap nat (list render_group)) (c : t) : t :=
  mk (ctx c) m (id_to_shader_program c) (perspective_uniforms c)
     (n_textures c) (path_to_texture c).

Definition with_programs (m : gmap string (option (nat * string))) (c : t) : t :=
  mk (ctx c) (static_mobject_to_render_group_list c) m
     (perspective_uniforms c) (n_textures c) (path_to_texture c).

Definition with_perspective (u : list (string * value)) (c : t) : t :=
  mk (ctx c) (static_mobject_to_render_group_list c) (id_to_shader_program c)
     u (n_textures c) (path_to_texture c).

Definition with_n_textures (n : nat) (c : t) : t :=
  mk (ctx c) (static_mobject_to_render_group_list c) (id_to_shader_program c)
     (perspective_uniforms c) n (path_to_texture c).

Definition with_textures (m : gmap string (nat * nat)) (c : t) : t :=
  mk (ctx c) (static_mobject_to_render_group_list c) (id_to_shader_program c)
     (perspective_uniforms c) (n_textures c) m.

(** *** Exceptions and state *)

Inductive exn : Type :=
| KeyError (key : string)
| TypeError
| ImageError (path : string)
| ShaderError (source : program_code).

Inductive result (A : Type) : Type :=
| Ok (a : A)
| Raise (e : exn).

Arguments Ok {A} a.
Arguments Raise {A} e.

(** A method call: it starts in a camera state and ends in one, with a value
    or with an exception.  What was written before an exception stays
    written. *)
Definition M (A : Type) : Type := t -> result A * t.

Definition ret {A : Type} (a : A) : M A := fun c => (Ok a, c).

Definition bind {A B : Type} (m : M A) (k : A -> M B) : M B :=
  fun c =>
    match m c with
    | (Ok a, c') => k a c'
    | (Raise e, c') => (Raise e, c')
    end.

Definition raise {A : Type} (e : exn) : M A := fun c => (Raise e, c).

Definition get : M t := fun c => (Ok c, c).

Definition modify (g : t -> t) : M unit := fun c => (Ok tt, g c).

Notation "'let*' x ':=' m 'in' k" := (bind m (fun x => k))
  (at level 10, x pattern, m at level 100, k at level 200).

(** [for x in xs: body(x)] *)
Fixpoint for_each {A : Type} (xs : list A) (body : A -> M unit) : M unit :=
  match xs with
  | [] => ret tt
  | x :: rest => let* _ := body x in for_each rest body
  end.

(** [[f(x) for x in xs]] *)
Fixpoint map_m {A B : Type} (f : A -> M B) (xs : list A) : M (list B) :=
  match xs with
  | [] => ret []
  | x :: rest => let* y := f x in let* ys := map_m f rest in ret (y :: ys)
  end.

(** [try: body except KeyError: pass] *)
Definition except_KeyError_pass (body : M unit) : M unit :=
  fun c =>
    match body c with
    | (Raise (KeyError _), c') => (Ok tt, c')
    | other => other
    end.

(** A property of the camera state that a method call keeps, whether the
    call returns or raises. *)
Definition preserves {A : Type} (I : t -> Prop) (m : M A) : Prop :=
  forall c, I c -> I (snd (m c)).

(** *** Calls into the graphics context *)

Definition allocate (o : gl_object) (x : context) : nat * context :=
  (next_id x,
   mk_context (S (next_id x)) (<[next_id x := o]> (objects x))
     ({[next_id x]} ∪ live x) (uniform_values x) (texture_units x)
     (depth_testing x) (events x)).

Definition log (e : event) (x : context) : context :=
  mk_context (next_id x) (objects x) (live x) (uniform_values x)
    (texture_units x) (depth_testing x) (e :: events x).

(** [obj.release()] *)
Definition release_object (i : nat) (x : context) : context :=
  mk_context (next_id x) (objects x) (live x ∖ {[i]}) (uniform_values x)
    (texture_units x) (depth_testing x) (events x).

Definition set_uniform (p : nat) (name : string) (v : value) (x : context) : context :=
  mk_context (next_id x) (objects x) (live x)
    (<[(p, name) := v]> (uniform_values x)) (texture_units x)
    (depth_testing x) (events x).

Definition bind_texture_unit (location texture : nat) (x : context) : context :=
  mk_context (next_id x) (objects x) (live x) (uniform_values x)
    (<[location := texture]> (texture_units x)) (depth_testing x) (events x).

Definition set_depth_testing (b : bool) (x : context) : context :=
  mk_context (next_id x) (objects x) (live x) (uniform_values x)
    (texture_units x) b (events x).

(** A context in which nothing has been created yet. *)
Definition fresh_context : context :=
  mk_context 0 ∅ ∅ ∅ ∅ false [].

(** Create an object in the camera's context and return its identity. *)
Definition ctx_create (o : gl_object) : M nat :=
  fun c => let '(i, x) := allocate o (ctx c) in (Ok i, with_ctx x c).

Definition ctx_modify (g : context -> context) : M unit :=
  modify (fun c => with_ctx (g (ctx c)) c).

(** [ctx.buffer(data)] *)
Definition ctx_buffer (data : list byte) : M nat := ctx_create (Buffer data).

(** [ctx.vertex_array] with the program, one buffer with its format and
    attribute names, and the index buffer. *)
Definition ctx_vertex_array (program vbo : nat) (vert_format : string)
    (attributes : list string) (index_buffer : option nat) : M nat :=
  ctx_create (VertexArray program vbo vert_format attributes index_buffer).

(** [ctx.texture(size=..., components=..., data=...)] *)
Definition ctx_texture (size : nat * nat) (components : nat)
    (data : list byte) : M nat :=
  ctx_create (Texture size components data).

(** [shader[name].value = v]: [shader[name]] raises KeyError when the
    program has no member of that name. *)
Definition program_set (shader : nat) (name : string) (v : value) : M unit :=
  let* c := get in
  match objects (ctx c) !! shader with
  | Some (Program _ members) =>
      if decide (name ∈ members)
      then ctx_modify (set_uniform shader name v)
      else raise (KeyError name)
  | _ => raise TypeError
  end.

(** [int] values of a numpy array cast to 'i4', as bytes: four bytes each,
    the low byte first, the value taken modulo 2^32. *)
Definition byte_of_Z (z : Z) : byte :=
  match Byte.of_N (Z.to_N (z mod 256)) with
  | Some b => b
  | None => Byte.x00
  end.

Definition i4_bytes (z : Z) : list byte :=
  let w := (z mod 2 ^ 32)%Z in
  [ byte_of_Z w; byte_of_Z (w / 2 ^ 8); byte_of_Z (w / 2 ^ 16);
    byte_of_Z (w / 2 ^ 24) ].

Definition indices_bytes (indices : list Z) : list byte :=
  flat_map i4_bytes indices.

(** [if isinstance(value, np.ndarray): value = tuple(value)] *)
Definition as_tuple (v : value) : value :=
  match v with
  | VArray xs => VTuple xs
  | other => other
  end.

Section Methods.
Context `{Driver}.

(** [ctx.program] with the program source as keyword arguments: the
    compiler is called, and either fails or yields a new program object. *)
Definition ctx_program (source : program_code) : M nat :=
  let* _ := ctx_modify (log (CompileProgram source)) in
  match link_program source with
  | Some members => ctx_create (Program source members)
  | None => raise (ShaderError source)
  end.

(** [Image.open(path).convert("RGBA")] *)
Definition image_open (path : string) : M image :=
  let* _ := ctx_modify (log (OpenImage path)) in
  match open_image path with
  | Some im => ret im
  | None => raise (ImageError path)
  end.

(** [moderngl.detect_format(program, attributes)] *)
Definition detect_program_format (program : nat) (attributes : list string) : M string :=
  let* c := get in
  match objects (ctx c) !! program with
  | Some (Program source _) => ret (detect_format source attributes)
  | _ => raise TypeError
  end.

(** *** Shaders *)

Definition init_shaders : M unit :=
  modify (with_programs {[ EmptyString := None ]}).

Definition get_shader_program (sw : shader_wrapper) : M (option (nat * string)) :=
  let sid := get_program_id sw in
  let* c := get in
  let* _ :=
    match id_to_shader_program c !! sid with
    | None =>
        let* program := ctx_program (get_program_code sw) in
        let* vert_format := detect_program_format program (vert_attributes sw) in
        modify (fun c => with_programs
                  (<[sid := Some (program, vert_format)]> (id_to_shader_program c)) c)
    | Some _ => ret tt
    end in
  let* c := get in
  match id_to_shader_program c !! sid with
  | Some entry => ret entry
  | None => raise (KeyError sid)
  end.

(** *** Textures *)

Definition init_textures : M unit :=
  let* _ := modify (with_n_textures 0) in
  modify (with_textures ∅).

Definition get_texture_id (path : string) : M nat :=
  let* c := get in
  let* _ :=
    match path_to_texture c !! path with
    | None =>
        let tid := n_textures c in
        let* _ := modify (with_n_textures (n_textures c + 1)) in
        let* im := image_open path in
        let* texture := ctx_texture (im_size im) (length (im_bands im)) (im_bytes im) in
        let* _ := ctx_modify (bind_texture_unit tid texture) in
        modify (fun c => with_textures (<[path := (tid, texture)]> (path_to_texture c)) c)
    | Some _ => ret tt
    end in
  let* c := get in
  match path_to_texture c !! path with
  | Some (tid, _) => ret tid
  | None => raise (KeyError path)
  end.

(** [pop(path, None)]; a pair is truthy, so a popped entry is always
    released. *)
Definition release_texture (path : string) : M unit :=
  let* c := get in
  let tid_and_texture := path_to_texture c !! path in
  let* _ := modify (with_textures (delete path (path_to_texture c))) in
  match tid_and_texture with
  | Some (_, texture) => ctx_modify (release_object texture)
  | None => ret tt
  end.

(** *** Uniforms *)

Definition set_texture_uniforms (shader : nat) (sw : shader_wrapper) : M unit :=
  for_each (texture_paths sw) (fun '(name, path) =>
    let* tid := get_texture_id path in
    program_set shader name (VInt (Z.of_nat tid))).

Definition set_value_uniforms (shader : nat) (items : list (string * value)) : M unit :=
  for_each items (fun '(name, v) =>
    except_KeyError_pass (program_set shader name (as_tuple v))).

Definition set_shader_uniforms (shader : nat) (sw : shader_wrapper) : M unit :=
  let* _ := set_texture_uniforms shader sw in
  let* c := get in
  set_value_uniforms shader (uniforms sw ++ perspective_uniforms c).

(** *** Render groups *)

Definition get_render_group (sw : shader_wrapper) (single : bool) : M render_group :=
  let* vbo := ctx_buffer (vert_data sw) in
  let* ibo :=
    match vert_indices sw with
    | None => ret None
    | Some indices =>
        let vert_index_data := indices_bytes indices in
        match vert_index_data with
        | [] => ret None
        | _ :: _ => let* b := ctx_buffer vert_index_data in ret (Some b)
        end
    end in
  let* entry := get_shader_program sw in
  match entry with
  | None => raise TypeError
  | Some (shader_program, vert_format) =>
      let* vao := ctx_vertex_array shader_program vbo vert_format
                    (vert_attributes sw) ibo in
      ret {| vbo := vbo; ibo := ibo; vao := vao; prog := shader_program;
             shader_wrapper_of := sw; single_use := single |}
  end.

Definition release_render_group (rg : render_group) : M unit :=
  let* _ := ctx_modify (release_object (vbo rg)) in
  let* _ := match ibo rg with
            | Some b => ctx_modify (release_object b)
            | None => ret tt
            end in
  ctx_modify (release_object (vao rg)).

Definition set_mobjects_as_static (mobjects : list mobject) : M unit :=
  for_each mobjects (fun mob =>
    let* groups := map_m (fun sw => get_render_group sw false)
                     (get_shader_wrapper_list mob) in
    modify (fun c => with_static
              (<[mob_id mob := groups]> (static_mobject_to_render_group_list c)) c)).

Definition release_static_mobjects : M unit :=
  let* c := get in
  let* _ := for_each (map_to_list (static_mobject_to_render_group_list c))
              (fun '(_, rg_list) => for_each rg_list release_render_group) in
  modify (with_static ∅).

Definition update_depth_test (sw : shader_wrapper) : M unit :=
  ctx_modify (set_depth_testing (depth_test sw)).

Definition render (rg : render_group) : M unit :=
  let sw := shader_wrapper_of rg in
  let shader_program := prog rg in
  let* _ := set_shader_uniforms shader_program sw in
  let* _ := update_depth_test sw in
  let* _ := ctx_modify (log (Draw (vao rg) (render_primitive sw))) in
  if single_use rg then release_render_group rg else ret tt.

(** The part of [__init__] that sets up the three caches, on a context that
    [init_context] has provided and with the perspective uniforms that
    [refresh_perspective_uniforms] has computed. *)
Definition new_camera (x : context) (pu : list (string * value)) : t :=
  let c0 := mk x ∅ ∅ pu 0 ∅ in
  let c1 := snd (init_shaders c0) in
  let c2 := snd (init_textures c1) in
  with_static ∅ c2.

(** The calls a client can make on a camera, as data.
    [RefreshPerspectiveUniforms] stands for the method of that name with the
    bundle it computes from the frame. *)
Inductive call : Type :=
| InitShaders
| InitTextures
| GetShaderProgram (sw : shader_wrapper)
| SetShaderUniforms (shader : nat) (sw : shader_wrapper)
| RefreshPerspectiveUniforms (pu : list (string * value))
| GetTextureId (path : string)
| ReleaseTexture (path : string)
| GetRenderGroup (sw : shader_wrapper) (single : bool)
| ReleaseRenderGroup (rg : render_group)
| SetMobjectsAsStatic (mobjects : list mobject)
| ReleaseStaticMobjects
| Render (rg : render_group).

(** The state a call leaves behind, whether it returns or raises. *)
Definition run_call (k : call) (c : t) : t :=
  match k with
  | InitShaders => snd (init_shaders c)
  | InitTextures => snd (init_textures c)
  | GetShaderProgram sw => snd (get_shader_program sw c)
  | SetShaderUniforms shader sw => snd (set_shader_uniforms shader sw c)
  | RefreshPerspectiveUniforms pu => with_perspective pu c
  | GetTextureId path => snd (get_texture_id path c)
  | ReleaseTexture path => snd (release_texture path c)
  | GetRenderGroup sw single => snd (get_render_group sw single c)
  | ReleaseRenderGroup rg => snd (release_render_group rg c)
  | SetMobjectsAsStatic mobjects => snd (set_mobjects_as_static mobjects c)
  | ReleaseStaticMobjects => snd (release_static_mobjects c)
  | Render rg => snd (render rg c)
  end.

Definition run_calls (ks : list call) (c : t) : t :=
  fold_left (fun c' k => run_call k c') ks c.

(** A camera as the constructor leaves it, after any calls. *)
Definition reachable (c : t) : Prop :=
  exists x pu ks, c = run_calls ks (new_camera x pu).

(** What the two caches keep true: the null signature is mapped to no
    program; every cached slot id is below the slot counter; every cached
    path is one whose image could be opened. *)
Definition caches_ok (c : t) : Prop :=
  id_to_shader_program c !! EmptyString = Some None
  /\ (forall path tid texture,
        path_to_texture c !! path = Some (tid, texture) -> tid < n_textures c)
  /\ (forall path entry,
        path_to_texture c !! path = Some entry -> is_Some (open_image path)).

End Methods.

(** The sources handed to the compiler so far, the newest first. *)
Definition compile_calls (c : t) : list program_code :=
  omap (fun e => match e with CompileProgram s => Some s | _ => None end)
       (events (ctx c)).

(** The paths handed to [Image.open] so far, the newest first. *)
Definition image_opens (c : t) : list string :=
  omap (fun e => match e with OpenImage p => Some p | _ => None end)
       (events (ctx c)).

(** The value of the last item of the list that carries the name. *)
Fixpoint last_binding (name : string) (items : list (string * value)) : option value :=
  match items with
  | [] => None
  | (n, v) :: rest =>
      match last_binding name rest with
      | Some w => Some w
      | None => if decide (n = name) then Some v else None
      end
  end.

(** The uniforms of program [shader] after the items have been offered to it
    in order: an item is stored when the program has a member of its name. *)
Definition bind_values (shader : nat) (members : gset string)
    (items : list (string * value)) (x : context) : context :=
  fold_left
    (fun x' '(name, v) =>
       if decide (name ∈ members)
       then set_uniform shader name (as_tuple v) x'
       else x')
    items x.

(** Every object of the set is alive in the camera's context. *)
Definition all_alive (X : gset nat) (c : t) : Prop := X ⊆ live (ctx c).

(** The identities of the buffers and vertex arrays of a list of groups. *)
Definition group_objects (rg : render_group) : list nat :=
  vbo rg :: vao rg :: match ibo rg with Some b => [b] | None => [] end.

(** *** A driver and inputs to run the camera on *)

(** A compiler that accepts every source and keeps the single uniform
    "color"; one image file, "a.png". *)
Definition sample_driver : Driver := {|
  link_program := fun _ => Some {[ "color"%string ]};
  detect_format := fun _ _ => "3f"%string;
  open_image := fun path =>
    if decide (path = "a.png"%string)
    then Some {| im_size := (1, 1)%nat;
                 im_bands := ["R"; "G"; "B"; "A"]%string;
                 im_bytes := [Byte.xff; Byte.xff; Byte.xff; Byte.xff] |}
    else None
|}.

(** A shader unit with twelve bytes of vertex data, no indices, no textures
    and one uniform. *)
Definition sample_unit : shader_wrapper := {|
  vert_data := repeat Byte.x00 12;
  vert_indices := None;
  vert_attributes := ["point"%string];
  uniforms := [("color"%string, VArray [1%R; 0%R; 0%R])];
  texture_paths := [];
  depth_test := false;
  render_primitive := 4%Z;
  program_id := "quad"%string;
  code := [("vertex_shader"%string, "void main() {}"%string)]
|}.

(** The same unit with a texture uniform that the compiled program does not
    have. *)
Definition textured_unit : shader_wrapper := {|
  vert_data := vert_data sample_unit;
  vert_indices := None;
  vert_attributes := vert_attributes sample_unit;
  uniforms := uniforms sample_unit;
  texture_paths := [("Texture"%string, "a.png"%string)];
  depth_test := false;
  render_primitive := 4%Z;
  program_id := "quad"%string;
  code := code sample_unit
|}.

(** The sample unit with another value for its uniform: the same program
    signature, different uniform values. *)
Definition recoloured_unit : shader_wrapper := {|
  vert_data := vert_data sample_unit;
  vert_indices := None;
  vert_attributes := vert_attributes sample_unit;
  uniforms := [("color"%string, VArray [0%R; 1%R; 0%R])];
  texture_paths := [];
  depth_test := false;
  render_primitive := 4%Z;
  program_id := "quad"%string;
  code := code sample_unit
|}.

(** The sample unit with a second uniform, "time", that the compiled
    program does not have. *)
Definition timed_unit : shader_wrapper := {|
  vert_data := vert_data sample_unit;
  vert_indices := None;
  vert_attributes := vert_attributes sample_unit;
  uniforms := [("color"%string, VArray [1%R; 0%R; 0%R]);
               ("time"%string, VFloat 2%R)];
  texture_paths := [];
  depth_test := false;
  render_primitive := 4%Z;
  program_id := "quad"%string;
  code := code sample_unit
|}.

(** A unit with the null signature. *)
Definition null_unit : shader_wrapper := {|
  vert_data := vert_data sample_unit;
  vert_indices := None;
  vert_attributes := vert_attributes sample_unit;
  uniforms := [];
  texture_paths := [];
  depth_test := false;
  render_primitive := 4%Z;
  program_id := EmptyString;
  code := code sample_unit
|}.

Definition sample_mobject : mobject := {|
  mob_id := 7;
  shader_wrapper_list := [sample_unit]
|}.

Definition sample_camera : t := new_camera fresh_context [].

(** The sample camera after the program of the sample unit has been
    requested: the program is object 0 and has the one member "color". *)
Definition programmed_camera : t :=
  snd (@get_shader_program sample_driver sample_unit sample_camera).

(** The sample camera after one and after two promotions of the sample
    drawable. *)
Definition promoted_once : t :=
  snd (@set_mobjects_as_static sample_driver [sample_mobject] sample_camera).

Definition promoted_twice : t :=
  snd (@set_mobjects_as_static sample_driver [sample_mobject] promoted_once).

(** The groups that the first and the second promotion build. *)
Definition first_group : render_group :=
  {| vbo := 0; ibo := None; vao := 2; prog := 1;
     shader_wrapper_of := sample_unit; single_use := false |}.

Definition second_group : render_group :=
  {| vbo := 3; ibo := None; vao := 4; prog := 1;
     shader_wrapper_of := sample_unit; single_use := false |}.

(** A compiler that rejects a program without any source. *)
Definition picky_driver : Driver := {|
  link_program := fun source =>
    match source with
    | [] => None
    | _ :: _ => Some {[ "color"%string ]}
    end;
  detect_format := fun _ _ => "3f"%string;
  open_image := fun _ => None
|}.

(** A unit whose program has no source. *)
Definition broken_unit : shader_wrapper := {|
  vert_data := vert_data sample_unit;
  vert_indices := None;
  vert_attributes := vert_attributes sample_unit;
  uniforms := [];
  texture_paths := [];
  depth_test := false;
  render_primitive := 4%Z;
  program_id := "broken"%string;
  code := []
|}.

(** A drawable that is not in the static index of the sample cameras. *)
Definition loose_mobject : mobject := {|
  mob_id := 8;
  shader_wrapper_list := [sample_unit]
|}.

(** *** Further methods and notions *)

(** The context with another set of live objects. *)
Definition with_live (L : gset nat) (x : context) : context :=
  mk_context (next_id x) (objects x) L (uniform_values x) (texture_units x)
    (depth_testing x) (events x).

(** The camera after the listed objects have been released. *)
Definition released (objs : list nat) (c : t) : t :=
  with_ctx (with_live (live (ctx c) ∖ list_to_set objs) (ctx c)) c.

(** The vertex arrays drawn so far with their primitive, the newest first. *)
Definition draw_calls (c : t) : list (nat * Z) :=
  omap (fun e => match e with Draw v p => Some (v, p) | _ => None end)
       (events (ctx c)).

(** The objects of all groups of a static index. *)
Definition index_objects (m : gmap nat (list render_group)) : list nat :=
  flat_map (fun '(_, groups) => flat_map group_objects groups) (map_to_list m).

(** Every group of the static index is a persistent one. *)
Definition index_persistent (c : t) : Prop :=
  forall i groups rg,
    static_mobject_to_render_group_list c !! i = Some groups ->
    rg ∈ groups -> single_use rg = false.

(** Every cached slot id is below the slot counter and is the texture unit
    the cached texture is bound to, and no two cached paths share a slot. *)
Definition textures_ok (c : t) : Prop :=
  (forall path tid texture,
      path_to_texture c !! path = Some (tid, texture) ->
      tid < n_textures c /\ texture_units (ctx c) !! tid = Some texture)
  /\ (forall p q tid x y,
        path_to_texture c !! p = Some (tid, x) ->
        path_to_texture c !! q = Some (tid, y) -> p = q).

(** What [get_render_group_list] returns: the list stored in the static
    index, or the lazy [map] of [get_render_group] over the shader units of
    the drawable, whose groups are built one by one as the caller iterates. *)
Inductive group_source : Type :=
| Persistent (groups : list render_group)
| Ephemeral (units : list shader_wrapper).

Definition get_render_group_list (mob : mobject) : M group_source :=
  let* c := get in
  match static_mobject_to_render_group_list c !! mob_id mob with
  | Some groups => ret (Persistent groups)
  | None => ret (Ephemeral (get_shader_wrapper_list mob))
  end.

(** The draw that [render] issues for a group. *)
Definition group_draw (rg : render_group) : nat * Z :=
  (vao rg, render_primitive (shader_wrapper_of rg)).

(** The draws of the registered drawables of a list, in the order of the
    list and of the groups of each drawable. *)
Definition static_draws (m : gmap nat (list render_group))
    (mobjects : list mobject) : list (nat * Z) :=
  flat_map (fun mob =>
              match m !! mob_id mob with
              | Some groups => map group_draw groups
              | None => []
              end) mobjects.

(** Identities are handed out in increasing order: every live object has an
    identity below the next one. *)
Definition ctx_fresh (x : context) : Prop :=
  forall o, o ∈ live x -> o < next_id x.

(** A program or a texture: the objects that the camera keeps in its caches
    and does not release when a frame is done. *)
Definition cache_kind (o : option gl_object) : Prop :=
  match o with
  | Some (Program _ _) | Some (Texture _ _ _) => True
  | _ => False
  end.

(** While a frame is being captured from a camera whose live objects were
    [before] and whose static index was [m]: the objects that were alive are
    still alive, every other live object is a program, a texture or one of
    the objects [pending] release, and the static index is [m]. *)
Definition capture_inv (before : gset nat) (m : gmap nat (list render_group))
    (pending : gset nat) (c : t) : Prop :=
  ctx_fresh (ctx c)
  /\ before ⊆ live (ctx c)
  /\ (forall o, o ∈ live (ctx c) ->
                o ∈ before \/ o ∈ pending \/ cache_kind (objects (ctx c) !! o))
  /\ static_mobject_to_render_group_list c = m.

(** [o] is the index buffer [i], if there is one. *)
Definition ibo_is (o : nat) (i : option nat) : Prop :=
  match i with
  | Some x => o = x
  | None => False
  end.

Section Capture.
Context `{Driver}.

(** [for render_group in self.get_render_group_list(mobject):
    self.render(render_group)] *)
Definition render_all (mob : mobject) : M unit :=
  let* source := get_render_group_list mob in
  match source with
  | Persistent groups => for_each groups render
  | Ephemeral units =>
      for_each units (fun sw =>
        let* rg := get_render_group sw true in render rg)
  end.

(** [capture]: [refresh_perspective_uniforms] stores the bundle it computes
    from the frame, here the argument [pu]; then every drawable is rendered
    in the order given. *)
Definition capture (pu : list (string * value)) (mobjects : list mobject) : M unit :=
  let* _ := modify (with_perspective pu) in
  for_each mobjects render_all.

End Capture.

End Camera.

(** * Properties of the camera frame *)

Section FrameProperties.
Import CameraFrame.
Local Open Scope R_scope.
Context `{ops : SpaceOps}.

Lemma refresh_points (f : t) : points (refresh_rotation_matrix f) = points f.
Proof. destruct f as [p [[a b] c] m fd]; reflexivity. Qed.

Lemma refresh_angles (f : t) :
  euler_angles (refresh_rotation_matrix f) = euler_angles f.
Proof. destruct f as [p [[a b] c] m fd]; reflexivity. Qed.

Lemma refresh_focal (f : t) :
  focal_distance (refresh_rotation_matrix f) = focal_distance f.
Proof. destruct f as [p [[a b] c] m fd]; reflexivity. Qed.

Lemma refresh_matrix (f : t) :
  inverse_camera_rotation_matrix (refresh_rotation_matrix f)
  = matrix_of_triple (theta_of f) (phi_of f) (gamma_of f).
Proof.
  destruct f as [p [[a b] c] m fd]; reflexivity.
Qed.

Lemma refresh_theta (f : t) : theta_of (refresh_rotation_matrix f) = theta_of f.
Proof. unfold theta_of. by rewrite refresh_angles. Qed.

Lemma refresh_phi (f : t) : phi_of (refresh_rotation_matrix f) = phi_of f.
Proof. unfold phi_of. by rewrite refresh_angles. Qed.

Lemma refresh_gamma (f : t) : gamma_of (refresh_rotation_matrix f) = gamma_of f.
Proof. unfold gamma_of. by rewrite refresh_angles. Qed.

Lemma set_euler_angles_points th ph ga u (f : t) :
  points (set_euler_angles th ph ga u f) = points f.
Proof.
  unfold set_euler_angles. rewrite refresh_points.
  destruct th, ph, ga; reflexivity.
Qed.

Lemma set_euler_angles_focal th ph ga u (f : t) :
  focal_distance (set_euler_angles th ph ga u f) = focal_distance f.
Proof.
  unfold set_euler_angles. rewrite refresh_focal.
  destruct th, ph, ga; reflexivity.
Qed.

Lemma set_euler_angles_theta th ph ga u (f : t) :
  theta_of (set_euler_angles th ph ga u f) = stored th u (theta_of f).
Proof.
  unfold set_euler_angles. rewrite refresh_theta.
  destruct th, ph, ga; reflexivity.
Qed.

Lemma set_euler_angles_phi th ph ga u (f : t) :
  phi_of (set_euler_angles th ph ga u f) = stored ph u (phi_of f).
Proof.
  unfold set_euler_angles. rewrite refresh_phi.
  destruct th, ph, ga; reflexivity.
Qed.

Lemma set_euler_angles_gamma th ph ga u (f : t) :
  gamma_of (set_euler_angles th ph ga u f) = stored ga u (gamma_of f).
Proof.
  unfold set_euler_angles. rewrite refresh_gamma.
  destruct th, ph, ga; reflexivity.
Qed.

Lemma set_euler_angles_matrix th ph ga u (f : t) :
  let f' := set_euler_angles th ph ga u f in
  inverse_camera_rotation_matrix f'
  = matrix_of_triple (theta_of f') (phi_of f') (gamma_of f').
Proof.
  cbv zeta. unfold set_euler_angles.
  rewrite refresh_matrix, refresh_theta, refresh_phi, refresh_gamma.
  reflexivity.
Qed.

(** *** The clamp *)

Lemma clip_between a lo hi : lo <= hi -> lo <= clip a lo hi <= hi.
Proof.
  intros Hle. unfold clip.
  destruct (Rlt_dec a lo); [lra |].
  destruct (Rgt_dec a hi); lra.
Qed.

Lemma clip_above a lo hi : lo <= hi -> hi <= a -> clip a lo hi = hi.
Proof.
  intros Hle Ha. unfold clip.
  destruct (Rlt_dec a lo); [lra |].
  destruct (Rgt_dec a hi); lra.
Qed.

Lemma clip_below a lo hi : lo <= hi -> a <= lo -> clip a lo hi = lo.
Proof.
  intros Hle Ha. unfold clip.
  destruct (Rlt_dec a lo); [lra |].
  destruct (Rgt_dec a hi); lra.
Qed.

Lemma clip_inside a lo hi : lo <= a <= hi -> clip a lo hi = a.
Proof.
  intros Ha. unfold clip.
  destruct (Rlt_dec a lo); [lra |].
  destruct (Rgt_dec a hi); lra.
Qed.

Lemma PI_nonneg : 0 <= PI.
Proof. pose proof PI_RGT_0. lra. Qed.

Lemma increment_phi_phi d (f : t) :
  phi_of (increment_phi d f) = clip (phi_of f + d) 0 PI.
Proof. unfold increment_phi. rewrite refresh_phi. reflexivity. Qed.

Lemma increment_phi_theta d (f : t) :
  theta_of (increment_phi d f) = theta_of f.
Proof. unfold increment_phi. rewrite refresh_theta. reflexivity. Qed.

Lemma increment_phi_gamma d (f : t) :
  gamma_of (increment_phi d f) = gamma_of f.
Proof. unfold increment_phi. rewrite refresh_gamma. reflexivity. Qed.

Lemma increment_phi_in_range d (f : t) : phi_in_range (phi_of (increment_phi d f)).
Proof. rewrite increment_phi_phi. apply clip_between, PI_nonneg. Qed.

Lemma rotate_phi angle axis (f : t) : phi_in_range (phi_of (rotate angle axis f)).
Proof.
  unfold rotate. rewrite set_euler_angles_phi. simpl. unfold RADIANS.
  rewrite Rmult_1_r. apply acos_bound.
Qed.

Lemma increment_phis_cons d ds (f : t) :
  increment_phis (d :: ds) f = increment_phis ds (increment_phi d f).
Proof. reflexivity. Qed.

(** Increments that all point up: the stored phi follows the running sum
    until the sum reaches pi, and then stays there. *)
Lemma increment_phis_up ds : forall f : t,
  Forall (fun d => 0 <= d) ds -> phi_in_range (phi_of f) ->
  phi_in_range (phi_of (increment_phis ds f))
  /\ Rmin PI (phi_of f + Rsum ds) <= phi_of (increment_phis ds f).
Proof.
  induction ds as [| d ds IH]; intros f Hds Hf.
  - simpl. split; [exact Hf |]. unfold phi_in_range in Hf.
    rewrite Rplus_0_r. apply Rmin_r.
  - inversion Hds as [| ? ? Hd Hrest]; subst.
    rewrite increment_phis_cons.
    destruct (IH (increment_phi d f) Hrest (increment_phi_in_range d f))
      as [Hin Hlow].
    split; [exact Hin |].
    eapply Rle_trans; [| exact Hlow].
    rewrite increment_phi_phi. simpl.
    assert (Hs : 0 <= Rsum ds).
    { clear -Hrest. induction Hrest; simpl; lra. }
    unfold phi_in_range in Hf. pose proof PI_nonneg.
    unfold clip.
    destruct (Rlt_dec (phi_of f + d) 0); [lra |].
    destruct (Rgt_dec (phi_of f + d) PI).
    + apply Rmin_glb; [apply Rmin_l | ].
      eapply Rle_trans; [apply Rmin_l | lra].
    + apply Rmin_glb; [apply Rmin_l | ].
      eapply Rle_trans; [apply Rmin_r | lra].
Qed.

(** The same with increments that all point down. *)
Lemma increment_phis_down ds : forall f : t,
  Forall (fun d => d <= 0) ds -> phi_in_range (phi_of f) ->
  phi_in_range (phi_of (increment_phis ds f))
  /\ phi_of (increment_phis ds f) <= Rmax 0 (phi_of f + Rsum ds).
Proof.
  induction ds as [| d ds IH]; intros f Hds Hf.
  - simpl. split; [exact Hf |]. rewrite Rplus_0_r. apply Rmax_r.
  - inversion Hds as [| ? ? Hd Hrest]; subst.
    rewrite increment_phis_cons.
    destruct (IH (increment_phi d f) Hrest (increment_phi_in_range d f))
      as [Hin Hup].
    split; [exact Hin |].
    eapply Rle_trans; [exact Hup |].
    rewrite increment_phi_phi. simpl.
    assert (Hs : Rsum ds <= 0).
    { clear -Hrest. induction Hrest; simpl; lra. }
    unfold phi_in_range in Hf. pose proof PI_nonneg.
    unfold clip.
    destruct (Rlt_dec (phi_of f + d) 0).
    + apply Rmax_lub; [apply Rmax_l |].
      eapply Rle_trans; [| apply Rmax_l]. lra.
    + destruct (Rgt_dec (phi_of f + d) PI); [lra |].
      apply Rmax_lub; [apply Rmax_l |].
      eapply Rle_trans; [| apply Rmax_r]. lra.
Qed.

Lemma run_ops_snoc os o (f : t) : run_ops (os ++ [o]) f = run_op o (run_ops os f).
Proof. unfold run_ops. by rewrite fold_left_app. Qed.

Lemma run_calls_snoc cs c (f : t) :
  run_calls (cs ++ [c]) f = run_call c (run_calls cs f).
Proof. unfold run_calls. by rewrite fold_left_app. Qed.

Lemma run_op_phi o (f : t) :
  supplies_phi_in_range o -> phi_in_range (phi_of f) ->
  phi_in_range (phi_of (run_op o f)).
Proof.
  intros Ho Hf. destruct o as [th ph ga u | th ph ga | th | ph | ga | d | d | d | a ax];
    simpl.
  - rewrite set_euler_angles_phi. destruct ph; [exact Ho | exact Hf].
  - unfold reorient. rewrite set_euler_angles_phi. destruct ph; [exact Ho | exact Hf].
  - unfold set_theta. rewrite set_euler_angles_phi. exact Hf.
  - unfold set_phi. rewrite set_euler_angles_phi. exact Ho.
  - unfold set_gamma. rewrite set_euler_angles_phi. exact Hf.
  - unfold increment_theta. rewrite refresh_phi. exact Hf.
  - apply increment_phi_in_range.
  - unfold increment_gamma. rewrite refresh_phi. exact Hf.
  - apply rotate_phi.
Qed.

Lemma run_ops_phi os : forall f : t,
  phi_in_range (phi_of f) -> Forall supplies_phi_in_range os ->
  phi_in_range (phi_of (run_ops os f)).
Proof.
  induction os as [| o os IH]; intros f Hf Hos; [exact Hf |].
  inversion Hos as [| ? ? Ho Hrest]; subst.
  apply (IH (run_op o f)); [by apply run_op_phi | exact Hrest].
Qed.

(** C9: [rotate] changes the Euler triple and the inverse rotation matrix
    only.  The control points and the focal distance ratio are the ones of the
    frame before the call, so [get_width] and [get_height] return what they
    returned before. *)
Theorem rotate_keeps_width_and_height angle axis (f : t) :
  points (rotate angle axis f) = points f
  /\ focal_distance (rotate angle axis f) = focal_distance f
  /\ get_width (rotate angle axis f) = get_width f
  /\ get_height (rotate angle axis f) = get_height f.
Proof.
  assert (Hp : points (rotate angle axis f) = points f).
  { unfold rotate. apply set_euler_angles_points. }
  split; [| split; [| split]].
  - exact Hp.
  - unfold rotate. apply set_euler_angles_focal.
  - unfold get_width, get_points. by rewrite Hp.
  - unfold get_height, get_points. by rewrite Hp.
Qed.

(** C4: a partial [set_euler_angles] call stores each supplied angle times the
    unit and keeps each angle that is not supplied, and the inverse rotation
    matrix after the call is the one computed from the stored triple by the
    quaternion composition theta about OUT, phi about RIGHT, gamma about OUT.
    After every call of any sequence of such calls the stored matrix is again
    the matrix of the stored triple. *)
Theorem partial_set_euler_angles_consistent :
  (forall (f : t) th ph ga u,
      let f' := set_euler_angles th ph ga u f in
      theta_of f' = stored th u (theta_of f)
      /\ phi_of f' = stored ph u (phi_of f)
      /\ gamma_of f' = stored ga u (gamma_of f)
      /\ inverse_camera_rotation_matrix f'
         = matrix_of_triple (theta_of f') (phi_of f') (gamma_of f'))
  /\ (forall (f : t) ph ga u,
        theta_of (set_euler_angles None ph ga u f) = theta_of f)
  /\ (forall (f : t) th ga u,
        phi_of (set_euler_angles th None ga u f) = phi_of f)
  /\ (forall (f : t) th ph u,
        gamma_of (set_euler_angles th ph None u f) = gamma_of f)
  /\ (forall (f : t) cs c,
        let f' := run_calls (cs ++ [c]) f in
        inverse_camera_rotation_matrix f'
        = matrix_of_triple (theta_of f') (phi_of f') (gamma_of f')).
Proof.
  split; [| split; [| split; [| split]]].
  - intros f th ph ga u. cbv zeta.
    rewrite set_euler_angles_theta, set_euler_angles_phi, set_euler_angles_gamma.
    repeat split.
    rewrite <- (set_euler_angles_theta th ph ga u f).
    rewrite <- (set_euler_angles_phi th ph ga u f).
    rewrite <- (set_euler_angles_gamma th ph ga u f).
    apply set_euler_angles_matrix.
  - intros. apply set_euler_angles_theta.
  - intros. apply set_euler_angles_phi.
  - intros. apply set_euler_angles_gamma.
  - intros f cs [[[th ph] ga] u]. cbv zeta. rewrite run_calls_snoc. simpl.
    apply set_euler_angles_matrix.
Qed.

(** C5, as amended: [increment_phi d] stores [clip (phi + d) 0 PI], which
    lies in [0, PI]: an increment that would take phi to PI or beyond stores
    PI, one that would take it to 0 or below stores 0.  The clamp saturates
    for increments in one direction: a run of upward increments whose sum
    takes phi to PI or beyond leaves phi at PI, and a run of downward
    increments whose sum takes it to 0 or below leaves it at 0.  Increments
    of both signs are not covered: a later increment in the other direction
    moves phi off the bound. *)
Theorem increment_phi_clamps_and_saturates :
  (forall (f : t) d, phi_of (increment_phi d f) = clip (phi_of f + d) 0 PI)
  /\ (forall (f : t) d, phi_in_range (phi_of (increment_phi d f)))
  /\ (forall (f : t) d,
        PI <= phi_of f + d -> phi_of (increment_phi d f) = PI)
  /\ (forall (f : t) d,
        phi_of f + d <= 0 -> phi_of (increment_phi d f) = 0)
  /\ (forall (f : t) ds,
        ds <> [] -> Forall (fun d => 0 <= d) ds ->
        PI <= phi_of f + Rsum ds ->
        phi_of (increment_phis ds f) = PI)
  /\ (forall (f : t) ds,
        ds <> [] -> Forall (fun d => d <= 0) ds ->
        phi_of f + Rsum ds <= 0 ->
        phi_of (increment_phis ds f) = 0).
Proof.
  pose proof PI_nonneg as Hpi.
  split; [| split; [| split; [| split; [| split]]]].
  - intros. apply increment_phi_phi.
  - intros. apply increment_phi_in_range.
  - intros f d Hd. rewrite increment_phi_phi. by apply clip_above.
  - intros f d Hd. rewrite increment_phi_phi. by apply clip_below.
  - intros f [| d ds] Hne Hds Hsum; [congruence |].
    inversion Hds as [| ? ? Hd Hrest]; subst.
    rewrite increment_phis_cons.
    destruct (increment_phis_up ds (increment_phi d f) Hrest
                (increment_phi_in_range d f)) as [[_ Hhi] Hlow].
    assert (Hs : 0 <= Rsum ds).
    { clear -Hrest. induction Hrest; simpl; lra. }
    assert (Hreach : PI <= phi_of (increment_phi d f) + Rsum ds).
    { rewrite increment_phi_phi. simpl in Hsum. unfold clip.
      destruct (Rlt_dec (phi_of f + d) 0); [lra |].
      destruct (Rgt_dec (phi_of f + d) PI); lra. }
    rewrite Rmin_left in Hlow by exact Hreach. lra.
  - intros f [| d ds] Hne Hds Hsum; [congruence |].
    inversion Hds as [| ? ? Hd Hrest]; subst.
    rewrite increment_phis_cons.
    destruct (increment_phis_down ds (increment_phi d f) Hrest
                (increment_phi_in_range d f)) as [[Hlo _] Hup].
    assert (Hs : Rsum ds <= 0).
    { clear -Hrest. induction Hrest; simpl; lra. }
    assert (Hreach : phi_of (increment_phi d f) + Rsum ds <= 0).
    { rewrite increment_phi_phi. simpl in Hsum. unfold clip.
      destruct (Rlt_dec (phi_of f + d) 0); [lra |].
      destruct (Rgt_dec (phi_of f + d) PI); lra. }
    rewrite Rmax_left in Hup by exact Hreach. lra.
Qed.

(** C2, as amended: [increment_phi] and [rotate] always leave phi in
    [0, PI], and the increments of theta and gamma do not touch phi.
    [set_euler_angles], [set_phi] and [reorient] store the supplied phi times
    the unit as it is.  So phi is in [0, PI] after each operation of a
    sequence that starts from a phi in range and supplies only values of phi
    in range.  Theta and gamma are stored or added as given, with no
    wraparound. *)
Theorem phi_in_range_unless_set_outside :
  (forall (f : t) os,
      phi_in_range (phi_of f) -> Forall supplies_phi_in_range os ->
      forall n, phi_in_range (phi_of (run_ops (take n os) f)))
  /\ (forall (f : t) d, phi_in_range (phi_of (increment_phi d f)))
  /\ (forall (f : t) angle axis, phi_in_range (phi_of (rotate angle axis f)))
  /\ (forall (f : t) th ph ga u,
        phi_of (set_euler_angles th ph ga u f) = stored ph u (phi_of f)
        /\ theta_of (set_euler_angles th ph ga u f) = stored th u (theta_of f)
        /\ gamma_of (set_euler_angles th ph ga u f) = stored ga u (gamma_of f))
  /\ (forall (f : t) d,
        theta_of (increment_theta d f) = theta_of f + d
        /\ phi_of (increment_theta d f) = phi_of f)
  /\ (forall (f : t) d,
        gamma_of (increment_gamma d f) = gamma_of f + d
        /\ phi_of (increment_gamma d f) = phi_of f).
Proof.
  split; [| split; [| split; [| split; [| split]]]].
  - intros f os Hf Hos n. apply run_ops_phi; [exact Hf |].
    by apply Forall_take.
  - intros. apply increment_phi_in_range.
  - intros. apply rotate_phi.
  - intros. rewrite set_euler_angles_phi, set_euler_angles_theta,
      set_euler_angles_gamma. done.
  - intros. unfold increment_theta. by rewrite refresh_theta, refresh_phi.
  - intros. unfold increment_gamma. by rewrite refresh_gamma, refresh_phi.
Qed.

End FrameProperties.

Section FrameExamples.
Import CameraFrame.
Local Open Scope R_scope.

Lemma sample_frame_phi : phi_of sample_frame = 0.
Proof. unfold sample_frame. rewrite refresh_phi. reflexivity. Qed.

(** Two upward increments of 2 from phi = 0 end at PI, and a downward
    increment from phi = 0 stays at 0. *)
Lemma increment_phi_saturates_at_sample :
  phi_of (@increment_phis usual_ops [2; 2] sample_frame) = PI
  /\ phi_of (@increment_phis usual_ops [-1] sample_frame) = 0.
Proof.
  split.
  - apply (proj1 (proj2 (proj2 (proj2 (proj2
             (@increment_phi_clamps_and_saturates usual_ops)))))).
    + discriminate.
    + constructor; [lra |]. constructor; [lra | constructor].
    + rewrite sample_frame_phi. simpl. pose proof PI_4. lra.
  - apply (proj2 (proj2 (proj2 (proj2 (proj2
             (@increment_phi_clamps_and_saturates usual_ops)))))).
    + discriminate.
    + constructor; [lra | constructor].
    + rewrite sample_frame_phi. simpl. lra.
Defined.

(** From phi = 0 the increments 2 * PI and -1 have the cumulative sums
    2 * PI and 2 * PI - 1, both beyond PI, yet phi ends at PI - 1: the first
    increment is cut down to PI, and the second is taken from PI, not from
    the sum. *)
Lemma mixed_increments_leave_the_bound :
  PI < phi_of sample_frame + Rsum [2 * PI]
  /\ PI < phi_of sample_frame + Rsum [2 * PI; -1]
  /\ phi_of (@increment_phis usual_ops [2 * PI; -1] sample_frame) = PI - 1
  /\ PI - 1 <> PI.
Proof.
  pose proof PI_4 as Hlow. pose proof PI2_3_2 as Hmid.
  rewrite sample_frame_phi. unfold Rsum. simpl.
  split; [lra |]. split; [lra |]. split; [| lra].
  unfold increment_phis. simpl.
  rewrite !increment_phi_phi, sample_frame_phi.
  rewrite (clip_above (0 + 2 * PI) 0 PI) by lra.
  apply clip_inside. lra.
Qed.

(** [set_phi (-1)] on the sample frame stores phi = -1, outside [0, PI]. *)
Lemma set_phi_leaves_range :
  ~ phi_in_range (phi_of (@run_ops usual_ops [SetPhi (-1)] sample_frame)).
Proof.
  unfold run_ops. simpl. unfold set_phi.
  rewrite set_euler_angles_phi. simpl. unfold RADIANS, phi_in_range. lra.
Qed.

(** A run of three calls from the sample frame, each supplying a phi in range
    or none, keeps phi in range. *)
Lemma phi_in_range_at_sample :
  phi_in_range
    (phi_of (@run_ops usual_ops
               (take 3 [SetPhi 1; IncrementPhi 5; Rotate 1 (0, 1, 0)])
               sample_frame)).
Proof.
  apply (proj1 (@phi_in_range_unless_set_outside usual_ops)).
  - rewrite sample_frame_phi. unfold phi_in_range. pose proof PI_RGT_0. lra.
  - constructor.
    + unfold supplies_phi_in_range, phi_in_range. simpl.
      unfold RADIANS. pose proof PI2_3_2. lra.
    + constructor; [exact I |].
      constructor; [exact I | constructor].
Defined.

End FrameExamples.

(** * Properties of the camera *)

Section CameraProperties.
Import Camera.
Context `{drv : Driver}.

(** The state in which a first request for a program leaves the camera when
    the compiler accepts the source. *)
Lemma get_shader_program_cached (sw : shader_wrapper) (c : t) entry :
  id_to_shader_program c !! get_program_id sw = Some entry ->
  get_shader_program sw c = (Ok entry, c).
Proof.
  intros Hc. unfold get_shader_program, bind, get. simpl.
  rewrite Hc. simpl. rewrite Hc. reflexivity.
Qed.

Lemma get_shader_program_compiles (sw : shader_wrapper) (c : t) members :
  id_to_shader_program c !! get_program_id sw = None ->
  link_program (get_program_code sw) = Some members ->
  let source := get_program_code sw in
  let p := next_id (ctx c) in
  let entry := Some (p, detect_format source (vert_attributes sw)) in
  get_shader_program sw c
  = (Ok entry,
     with_programs (<[get_program_id sw := entry]> (id_to_shader_program c))
       (with_ctx (snd (allocate (Program source members)
                         (log (CompileProgram source) (ctx c)))) c)).
Proof.
  intros Hc Hl. cbv zeta.
  unfold get_shader_program, bind, get. simpl.
  rewrite Hc. unfold ctx_program, bind, ctx_modify, modify. simpl.
  rewrite Hl. unfold detect_program_format, bind, get. simpl.
  rewrite lookup_insert_eq. simpl. rewrite lookup_insert_eq. reflexivity.
Qed.

Lemma get_shader_program_rejected (sw : shader_wrapper) (c : t) :
  id_to_shader_program c !! get_program_id sw = None ->
  link_program (get_program_code sw) = None ->
  get_shader_program sw c
  = (Raise (ShaderError (get_program_code sw)),
     with_ctx (log (CompileProgram (get_program_code sw)) (ctx c)) c).
Proof.
  intros Hc Hl.
  unfold get_shader_program, bind, get. simpl.
  rewrite Hc. unfold ctx_program, bind, ctx_modify, modify. simpl.
  rewrite Hl. reflexivity.
Qed.

(** *** Textures *)

Lemma get_texture_id_cached path (c : t) tid texture :
  path_to_texture c !! path = Some (tid, texture) ->
  get_texture_id path c = (Ok tid, c).
Proof.
  intros Hc. unfold get_texture_id, bind, get. simpl.
  rewrite Hc. simpl. rewrite Hc. reflexivity.
Qed.

Lemma get_texture_id_loads path (c : t) im :
  path_to_texture c !! path = None ->
  open_image path = Some im ->
  let tid := n_textures c in
  let texture := next_id (ctx c) in
  get_texture_id path c
  = (Ok tid,
     with_textures (<[path := (tid, texture)]> (path_to_texture c))
       (with_ctx
          (bind_texture_unit tid texture
             (snd (allocate
                     (Texture (im_size im) (length (im_bands im)) (im_bytes im))
                     (log (OpenImage path) (ctx c)))))
          (with_n_textures (n_textures c + 1) c))).
Proof.
  intros Hc Hi. cbv zeta.
  unfold get_texture_id, bind, get. simpl.
  rewrite Hc. unfold image_open, bind, ctx_modify, modify. simpl.
  rewrite Hi. simpl. rewrite lookup_insert_eq. reflexivity.
Qed.

Lemma get_texture_id_fails path (c : t) :
  path_to_texture c !! path = None ->
  open_image path = None ->
  get_texture_id path c
  = (Raise (ImageError path),
     with_ctx (log (OpenImage path) (ctx c))
       (with_n_textures (n_textures c + 1) c)).
Proof.
  intros Hc Hi.
  unfold get_texture_id, bind, get. simpl.
  rewrite Hc. unfold image_open, bind, ctx_modify, modify. simpl.
  rewrite Hi. reflexivity.
Qed.

Lemma release_texture_state path (c : t) :
  release_texture path c
  = (Ok tt,
     match path_to_texture c !! path with
     | Some (_, texture) =>
         with_ctx (release_object texture (ctx c))
           (with_textures (delete path (path_to_texture c)) c)
     | None => with_textures (delete path (path_to_texture c)) c
     end).
Proof.
  unfold release_texture, bind, get, modify. simpl.
  destruct (path_to_texture c !! path) as [[tid texture] |]; reflexivity.
Qed.

(** *** How a property of the state passes through the control flow *)

Lemma preserves_ret {A} (I : t -> Prop) (a : A) : preserves I (ret a).
Proof. intros c Hc. exact Hc. Qed.

Lemma preserves_raise {A} (I : t -> Prop) e : preserves I (@raise A e).
Proof. intros c Hc. exact Hc. Qed.

Lemma preserves_get (I : t -> Prop) : preserves I get.
Proof. intros c Hc. exact Hc. Qed.

Lemma preserves_modify (I : t -> Prop) g :
  (forall c, I c -> I (g c)) -> preserves I (modify g).
Proof. intros Hg c Hc. simpl. by apply Hg. Qed.

Lemma preserves_bind {A B} (I : t -> Prop) (m : M A) (k : A -> M B) :
  preserves I m -> (forall a, preserves I (k a)) -> preserves I (bind m k).
Proof.
  intros Hm Hk c Hc. unfold bind. specialize (Hm c Hc).
  destruct (m c) as [[a | e] c']; simpl in *; [by apply Hk | exact Hm].
Qed.

Lemma preserves_for_each {A} (I : t -> Prop) (xs : list A) body :
  (forall x, preserves I (body x)) -> preserves I (for_each xs body).
Proof.
  intros Hb. induction xs as [| x xs IH]; simpl.
  - apply preserves_ret.
  - apply preserves_bind; [apply Hb | intros _; exact IH].
Qed.

Lemma preserves_map_m {A B} (I : t -> Prop) (f : A -> M B) (xs : list A) :
  (forall x, preserves I (f x)) -> preserves I (map_m f xs).
Proof.
  intros Hf. induction xs as [| x xs IH]; simpl.
  - apply preserves_ret.
  - apply preserves_bind; [apply Hf | intros y].
    apply preserves_bind; [exact IH | intros ys; apply preserves_ret].
Qed.

Lemma preserves_except (I : t -> Prop) body :
  preserves I body -> preserves I (except_KeyError_pass body).
Proof.
  intros Hb c Hc. unfold except_KeyError_pass. specialize (Hb c Hc).
  destruct (body c) as [[[] | []] c']; exact Hb.
Qed.

(** *** The caches stay well formed *)

Lemma caches_ok_ctx_modify g : preserves caches_ok (ctx_modify g).
Proof. intros c Hc. exact Hc. Qed.

Lemma caches_ok_ctx_create o : preserves caches_ok (ctx_create o).
Proof. intros c Hc. exact Hc. Qed.

Lemma caches_ok_program_set shader name v :
  preserves caches_ok (program_set shader name v).
Proof.
  intros c Hc. unfold program_set, bind, get. simpl.
  destruct (objects (ctx c) !! shader) as [[| | | source members] |];
    try exact Hc.
  destruct (decide (name ∈ members)); exact Hc.
Qed.

Lemma caches_ok_init_shaders : preserves caches_ok init_shaders.
Proof.
  intros c (_ & Ht & Hi). split; [| split].
  - simpl. apply lookup_singleton_eq.
  - exact Ht.
  - exact Hi.
Qed.

Lemma caches_ok_init_textures : preserves caches_ok init_textures.
Proof.
  intros c (Hp & _ & _). split; [exact Hp |]. simpl.
  split; intros ? ?; [intros ? |]; rewrite lookup_empty; discriminate.
Qed.

Lemma caches_ok_get_shader_program sw : preserves caches_ok (get_shader_program sw).
Proof.
  intros c Hc.
  destruct (id_to_shader_program c !! get_program_id sw) as [entry |] eqn:Hs.
  - rewrite (get_shader_program_cached sw c entry Hs). exact Hc.
  - destruct (link_program (get_program_code sw)) as [members |] eqn:Hl.
    + rewrite (get_shader_program_compiles sw c members Hs Hl).
      destruct Hc as (Hp & Ht & Hi). split; [| split; [exact Ht | exact Hi]].
      simpl. rewrite lookup_insert_ne; [exact Hp |].
      intros Heq. rewrite Heq in Hs. congruence.
    + rewrite (get_shader_program_rejected sw c Hs Hl). exact Hc.
Qed.

Lemma caches_ok_get_texture_id path : preserves caches_ok (get_texture_id path).
Proof.
  intros c Hc.
  destruct (path_to_texture c !! path) as [[tid texture] |] eqn:Hs.
  - rewrite (get_texture_id_cached path c tid texture Hs). exact Hc.
  - destruct Hc as (Hp & Ht & Hi).
    destruct (open_image path) as [im |] eqn:Ho.
    + rewrite (get_texture_id_loads path c im Hs Ho).
      split; [exact Hp |]. simpl. split.
      * intros q tid texture Hq.
        destruct (decide (path = q)) as [-> | Hne].
        -- rewrite lookup_insert_eq in Hq. inversion Hq; subst. lia.
        -- rewrite lookup_insert_ne in Hq by exact Hne.
           specialize (Ht q tid texture Hq). lia.
      * intros q entry Hq.
        destruct (decide (path = q)) as [-> | Hne].
        -- rewrite Ho. eauto.
        -- rewrite lookup_insert_ne in Hq by exact Hne. by eapply Hi.
    + rewrite (get_texture_id_fails path c Hs Ho).
      split; [exact Hp |]. simpl. split.
      * intros q tid texture Hq. specialize (Ht q tid texture Hq). lia.
      * exact Hi.
Qed.

Lemma caches_ok_release_texture path : preserves caches_ok (release_texture path).
Proof.
  intros c (Hp & Ht & Hi). rewrite release_texture_state. simpl.
  assert (Hgoal : caches_ok (with_textures (delete path (path_to_texture c)) c)).
  { split; [exact Hp |]. simpl. split.
    - intros q tid texture Hq. apply lookup_delete_Some in Hq as [_ Hq].
      by eapply Ht.
    - intros q entry Hq. apply lookup_delete_Some in Hq as [_ Hq].
      by eapply Hi. }
  destruct (path_to_texture c !! path) as [[tid texture] |]; exact Hgoal.
Qed.

Lemma caches_ok_set_texture_uniforms shader sw :
  preserves caches_ok (set_texture_uniforms shader sw).
Proof.
  apply preserves_for_each. intros [name path].
  apply preserves_bind; [apply caches_ok_get_texture_id |].
  intros tid. apply caches_ok_program_set.
Qed.

Lemma caches_ok_set_value_uniforms shader items :
  preserves caches_ok (set_value_uniforms shader items).
Proof.
  apply preserves_for_each. intros [name v].
  apply preserves_except, caches_ok_program_set.
Qed.

Lemma caches_ok_set_shader_uniforms shader sw :
  preserves caches_ok (set_shader_uniforms shader sw).
Proof.
  apply preserves_bind; [apply caches_ok_set_texture_uniforms |].
  intros _. apply preserves_bind; [apply preserves_get |].
  intros c. apply caches_ok_set_value_uniforms.
Qed.

Lemma caches_ok_get_render_group sw single :
  preserves caches_ok (get_render_group sw single).
Proof.
  apply preserves_bind; [apply caches_ok_ctx_create |]. intros b.
  apply preserves_bind.
  { destruct (vert_indices sw) as [indices |]; [| apply preserves_ret].
    destruct (indices_bytes indices); [apply preserves_ret |].
    apply preserves_bind; [apply caches_ok_ctx_create |].
    intros ?. apply preserves_ret. }
  intros i. apply preserves_bind; [apply caches_ok_get_shader_program |].
  intros [[p fmt] |]; [| apply preserves_raise].
  apply preserves_bind; [apply caches_ok_ctx_create |].
  intros ?. apply preserves_ret.
Qed.

Lemma caches_ok_release_render_group rg :
  preserves caches_ok (release_render_group rg).
Proof.
  apply preserves_bind; [apply caches_ok_ctx_modify |]. intros _.
  apply preserves_bind; [| intros _; apply caches_ok_ctx_modify].
  destruct (ibo rg); [apply caches_ok_ctx_modify | apply preserves_ret].
Qed.

Lemma caches_ok_set_mobjects_as_static mobjects :
  preserves caches_ok (set_mobjects_as_static mobjects).
Proof.
  apply preserves_for_each. intros mob.
  apply preserves_bind.
  - apply preserves_map_m. intros sw. apply caches_ok_get_render_group.
  - intros groups. apply preserves_modify. intros c Hc. exact Hc.
Qed.

Lemma caches_ok_release_static_mobjects :
  preserves caches_ok release_static_mobjects.
Proof.
  apply preserves_bind; [apply preserves_get |]. intros c.
  apply preserves_bind.
  - apply preserves_for_each. intros [i rg_list].
    apply preserves_for_each. intros rg. apply caches_ok_release_render_group.
  - intros _. apply preserves_modify. intros c' Hc. exact Hc.
Qed.

Lemma caches_ok_render rg : preserves caches_ok (render rg).
Proof.
  apply preserves_bind; [apply caches_ok_set_shader_uniforms |]. intros _.
  apply preserves_bind; [apply caches_ok_ctx_modify |]. intros _.
  apply preserves_bind; [apply caches_ok_ctx_modify |]. intros _.
  destruct (single_use rg);
    [apply caches_ok_release_render_group | apply preserves_ret].
Qed.

Lemma caches_ok_new_camera x pu : caches_ok (new_camera x pu).
Proof.
  split; [| split].
  - simpl. apply lookup_singleton_eq.
  - intros path tid texture. simpl. rewrite lookup_empty. discriminate.
  - intros path entry. simpl. rewrite lookup_empty. discriminate.
Qed.

Lemma caches_ok_run_call k (c : t) : caches_ok c -> caches_ok (run_call k c).
Proof.
  intros Hc. destruct k; simpl.
  - by apply caches_ok_init_shaders.
  - by apply caches_ok_init_textures.
  - by apply caches_ok_get_shader_program.
  - by apply caches_ok_set_shader_uniforms.
  - exact Hc.
  - by apply caches_ok_get_texture_id.
  - by apply caches_ok_release_texture.
  - by apply caches_ok_get_render_group.
  - by apply caches_ok_release_render_group.
  - by apply caches_ok_set_mobjects_as_static.
  - by apply caches_ok_release_static_mobjects.
  - by apply caches_ok_render.
Qed.

Lemma caches_ok_run_calls ks : forall c : t,
  caches_ok c -> caches_ok (run_calls ks c).
Proof.
  induction ks as [| k ks IH]; intros c Hc; [exact Hc |].
  apply (IH (run_call k c)). by apply caches_ok_run_call.
Qed.

Lemma reachable_caches_ok (c : t) : reachable c -> caches_ok c.
Proof.
  intros (x & pu & ks & ->). apply caches_ok_run_calls, caches_ok_new_camera.
Qed.

Lemma get_texture_id_caches path (c : t) tid c1 :
  get_texture_id path c = (Ok tid, c1) ->
  exists texture, path_to_texture c1 !! path = Some (tid, texture).
Proof.
  intros Hcall.
  destruct (path_to_texture c !! path) as [[tid0 texture] |] eqn:Hs.
  - rewrite (get_texture_id_cached path c tid0 texture Hs) in Hcall.
    inversion Hcall; subst. eauto.
  - destruct (open_image path) as [im |] eqn:Ho.
    + rewrite (get_texture_id_loads path c im Hs Ho) in Hcall.
      inversion Hcall; subst. simpl. rewrite lookup_insert_eq. eauto.
    + rewrite (get_texture_id_fails path c Hs Ho) in Hcall. discriminate.
Qed.

Lemma get_texture_id_opens path (c : t) tid c1 :
  get_texture_id path c = (Ok tid, c1) ->
  image_opens c1 = image_opens c \/ image_opens c1 = path :: image_opens c.
Proof.
  intros Hcall.
  destruct (path_to_texture c !! path) as [[tid0 texture] |] eqn:Hs.
  - rewrite (get_texture_id_cached path c tid0 texture Hs) in Hcall.
    inversion Hcall; subst. by left.
  - destruct (open_image path) as [im |] eqn:Ho.
    + rewrite (get_texture_id_loads path c im Hs Ho) in Hcall.
      inversion Hcall; subst. by right.
    + rewrite (get_texture_id_fails path c Hs Ho) in Hcall. discriminate.
Qed.

(** C6: two shader units with the same program signature share one compiled
    program.  When a request for the first unit returns, a request for the
    second returns the same program object and vertex format and leaves the
    camera as it was, so nothing is compiled for it; the first request has
    called the compiler at most once, and exactly once, caching the result,
    when the signature was not cached.  The uniform values of the units play
    no part. *)
Theorem same_signature_compiles_once (c : t) sw1 sw2 entry c1 :
  get_program_id sw1 = get_program_id sw2 ->
  get_shader_program sw1 c = (Ok entry, c1) ->
  get_shader_program sw2 c1 = (Ok entry, c1)
  /\ (compile_calls c1 = compile_calls c
      \/ compile_calls c1 = get_program_code sw1 :: compile_calls c)
  /\ (id_to_shader_program c !! get_program_id sw1 = None ->
      compile_calls c1 = get_program_code sw1 :: compile_calls c
      /\ id_to_shader_program c1 !! get_program_id sw1 = Some entry
      /\ exists vert_format,
           entry = Some (next_id (ctx c), vert_format)
           /\ next_id (ctx c) ∈ live (ctx c1)).
Proof.
  intros Hid Hcall.
  destruct (id_to_shader_program c !! get_program_id sw1) as [e |] eqn:Hs.
  - rewrite (get_shader_program_cached sw1 c e Hs) in Hcall.
    inversion Hcall; subst. split; [| split].
    + apply get_shader_program_cached. by rewrite <- Hid.
    + by left.
    + discriminate.
  - destruct (link_program (get_program_code sw1)) as [members |] eqn:Hl.
    + rewrite (get_shader_program_compiles sw1 c members Hs Hl) in Hcall.
      inversion Hcall; subst. split; [| split].
      * apply get_shader_program_cached. rewrite <- Hid. simpl.
        apply lookup_insert_eq.
      * by right.
      * intros _. split; [reflexivity |]. split.
        -- simpl. apply lookup_insert_eq.
        -- eexists. split; [reflexivity |]. simpl. set_solver.
    + rewrite (get_shader_program_rejected sw1 c Hs Hl) in Hcall.
      discriminate.
Qed.

(** C7: on a camera that the constructor and its methods have produced, when
    a request for a texture path returns a slot id, the next request for the
    path returns the same id and leaves the camera as it was, and the image
    has been opened at most once over the two requests.  After
    [release_texture] on the path, a fresh request opens the image again and
    returns a slot id that differs from the earlier one. *)
Theorem texture_slot_cached_then_renewed (c : t) path tid c1 :
  reachable c ->
  get_texture_id path c = (Ok tid, c1) ->
  get_texture_id path c1 = (Ok tid, c1)
  /\ (image_opens c1 = image_opens c \/ image_opens c1 = path :: image_opens c)
  /\ exists tid' c3,
       get_texture_id path (snd (release_texture path c1)) = (Ok tid', c3)
       /\ tid' <> tid
       /\ image_opens c3 = path :: image_opens c1.
Proof.
  intros Hreach Hcall.
  assert (Hok : caches_ok c1).
  { replace c1 with (snd (get_texture_id path c)) by (by rewrite Hcall).
    by apply caches_ok_get_texture_id, reachable_caches_ok. }
  destruct (get_texture_id_caches path c tid c1 Hcall) as [texture Hc1].
  destruct Hok as (_ & Hlt & Himg).
  split; [| split].
  - by eapply get_texture_id_cached.
  - by eapply get_texture_id_opens.
  - destruct (Himg path _ Hc1) as [im Him].
    rewrite release_texture_state, Hc1. simpl.
    eexists _, _. split; [| split].
    + apply (get_texture_id_loads path _ im); [| exact Him].
      simpl. apply lookup_delete_eq.
    + simpl. specialize (Hlt path tid texture Hc1). lia.
    + reflexivity.
Qed.

(** C10: [init_shaders] leaves a cache that maps the empty signature to no
    program and holds nothing else.  On every camera that the constructor and
    its methods have produced, a unit with the empty signature resolves to
    [None] and the camera is left as it was, so the compiler is not called.
    A request for a signature that is not cached calls the compiler with the
    unit's source, and on a new camera no signature but the empty one is
    cached. *)
Theorem null_signature_never_compiles :
  (forall c : t,
      id_to_shader_program (snd (init_shaders c)) = {[ EmptyString := None ]})
  /\ (forall (c : t) sw,
        reachable c -> get_program_id sw = EmptyString ->
        get_shader_program sw c = (Ok None, c))
  /\ (forall (c : t) sw,
        id_to_shader_program c !! get_program_id sw = None ->
        compile_calls (snd (get_shader_program sw c))
        = get_program_code sw :: compile_calls c)
  /\ (forall x pu sw,
        get_program_id sw <> EmptyString ->
        id_to_shader_program (new_camera x pu) !! get_program_id sw = None).
Proof.
  split; [| split; [| split]].
  - intros c. reflexivity.
  - intros c sw Hreach Hid.
    apply get_shader_program_cached. rewrite Hid.
    by destruct (reachable_caches_ok c Hreach) as (Hp & _).
  - intros c sw Hs.
    destruct (link_program (get_program_code sw)) as [members |] eqn:Hl.
    + by rewrite (get_shader_program_compiles sw c members Hs Hl).
    + by rewrite (get_shader_program_rejected sw c Hs Hl).
  - intros x pu sw Hne. simpl. by apply lookup_singleton_ne.
Qed.

(** *** Uniforms *)

Lemma offer_value_state shader name v (c : t) source members :
  objects (ctx c) !! shader = Some (Program source members) ->
  except_KeyError_pass (program_set shader name v) c
  = (Ok tt,
     if decide (name ∈ members)
     then with_ctx (set_uniform shader name v (ctx c)) c
     else c).
Proof.
  intros Hp. unfold except_KeyError_pass, program_set, bind, get. simpl.
  rewrite Hp. by destruct (decide (name ∈ members)).
Qed.

Lemma with_ctx_same (c : t) : with_ctx (ctx c) c = c.
Proof. by destruct c. Qed.

Lemma set_value_uniforms_state shader items : forall (c : t) source members,
  objects (ctx c) !! shader = Some (Program source members) ->
  set_value_uniforms shader items c
  = (Ok tt, with_ctx (bind_values shader members items (ctx c)) c).
Proof.
  induction items as [| [name v] items IH]; intros c source members Hp.
  - simpl. by rewrite with_ctx_same.
  - change (set_value_uniforms shader ((name, v) :: items))
      with (bind (except_KeyError_pass (program_set shader name (as_tuple v)))
              (fun _ => set_value_uniforms shader items)).
    unfold bind. rewrite (offer_value_state shader name _ c source members Hp).
    unfold bind_values. simpl. fold (bind_values shader members items).
    destruct (decide (name ∈ members)).
    + rewrite (IH _ source members) by (simpl; exact Hp). reflexivity.
    + exact (IH c source members Hp).
Qed.

Lemma bind_values_lookup shader members name items : forall x : context,
  uniform_values (bind_values shader members items x) !! (shader, name)
  = if decide (name ∈ members)
    then match last_binding name items with
         | Some v => Some (as_tuple v)
         | None => uniform_values x !! (shader, name)
         end
    else uniform_values x !! (shader, name).
Proof.
  induction items as [| [n v] items IH]; intros x.
  - simpl. by destruct (decide (name ∈ members)).
  - unfold bind_values in *. simpl. rewrite IH.
    destruct (decide (name ∈ members)) as [Hin | Hout].
    + destruct (last_binding name items) as [w |]; [reflexivity |].
      destruct (decide (n = name)) as [-> | Hne].
      * rewrite decide_True by exact Hin. simpl. apply lookup_insert_eq.
      * destruct (decide (n ∈ members)); [| reflexivity].
        simpl. apply lookup_insert_ne. congruence.
    + destruct (decide (n ∈ members)) as [Hn |]; [| reflexivity].
      simpl. apply lookup_insert_ne. intros Heq. inversion Heq; subst. done.
Qed.

(** X21: once the texture uniforms of the unit have been bound,
    [set_shader_uniforms] returns without an exception, and of the names in
    the unit's uniform values and in the perspective uniforms it binds those
    that the program has, each to the last value offered for it, numpy arrays
    as tuples.  A name that the program does not have is skipped: its slot is
    what it was. *)
Theorem absent_value_uniforms_are_skipped shader sw (c c1 : t) source members :
  set_texture_uniforms shader sw c = (Ok tt, c1) ->
  objects (ctx c1) !! shader = Some (Program source members) ->
  exists c2,
    set_shader_uniforms shader sw c = (Ok tt, c2)
    /\ forall name,
         uniform_values (ctx c2) !! (shader, name)
         = if decide (name ∈ members)
           then match last_binding name (uniforms sw ++ perspective_uniforms c1) with
                | Some v => Some (as_tuple v)
                | None => uniform_values (ctx c1) !! (shader, name)
                end
           else uniform_values (ctx c1) !! (shader, name).
Proof.
  intros Htex Hp.
  eexists. split.
  - unfold set_shader_uniforms, bind at 1. rewrite Htex.
    unfold bind, get. simpl.
    apply (set_value_uniforms_state shader _ c1 source members Hp).
  - intros name. simpl. apply bind_values_lookup.
Qed.

(** *** Nothing is released by a promotion *)

Lemma all_alive_ctx_create X o : preserves (all_alive X) (ctx_create o).
Proof. intros c Hc. unfold all_alive in *. simpl. set_solver. Qed.

Lemma all_alive_log X e : preserves (all_alive X) (ctx_modify (log e)).
Proof. intros c Hc. exact Hc. Qed.

Lemma all_alive_get_shader_program X sw :
  preserves (all_alive X) (get_shader_program sw).
Proof.
  apply preserves_bind; [apply preserves_get |]. intros c0.
  apply preserves_bind.
  - destruct (id_to_shader_program c0 !! get_program_id sw);
      [apply preserves_ret |].
    apply preserves_bind.
    { apply preserves_bind; [apply all_alive_log |]. intros _.
      destruct (link_program (get_program_code sw));
        [apply all_alive_ctx_create | apply preserves_raise]. }
    intros p. apply preserves_bind.
    { apply preserves_bind; [apply preserves_get |]. intros c'.
      destruct (objects (ctx c') !! p) as [[| | |] |];
        try apply preserves_raise. apply preserves_ret. }
    intros fmt. apply preserves_modify. intros c' Hc'. exact Hc'.
  - intros _. apply preserves_bind; [apply preserves_get |]. intros c'.
    destruct (id_to_shader_program c' !! get_program_id sw);
      [apply preserves_ret | apply preserves_raise].
Qed.

Lemma all_alive_get_render_group X sw single :
  preserves (all_alive X) (get_render_group sw single).
Proof.
  apply preserves_bind; [apply all_alive_ctx_create |]. intros b.
  apply preserves_bind.
  { destruct (vert_indices sw) as [indices |]; [| apply preserves_ret].
    destruct (indices_bytes indices); [apply preserves_ret |].
    apply preserves_bind; [apply all_alive_ctx_create |].
    intros ?. apply preserves_ret. }
  intros i. apply preserves_bind; [apply all_alive_get_shader_program |].
  intros [[p fmt] |]; [| apply preserves_raise].
  apply preserves_bind; [apply all_alive_ctx_create |].
  intros ?. apply preserves_ret.
Qed.

Lemma all_alive_set_mobjects_as_static X mobjects :
  preserves (all_alive X) (set_mobjects_as_static mobjects).
Proof.
  apply preserves_for_each. intros mob.
  apply preserves_bind.
  - apply preserves_map_m. intros sw. apply all_alive_get_render_group.
  - intros groups. apply preserves_modify. intros c Hc. exact Hc.
Qed.

(** Whatever is alive before [set_mobjects_as_static] is alive after it:
    the method has no path on which an object is released. *)
Lemma set_mobjects_as_static_releases_nothing mobjects (c : t) :
  live (ctx c) ⊆ live (ctx (snd (set_mobjects_as_static mobjects c))).
Proof.
  apply (all_alive_set_mobjects_as_static (live (ctx c)) mobjects c).
  unfold all_alive. reflexivity.
Qed.

End CameraProperties.

Section CameraExamples.
Import Camera.

(** Close a decidable goal on concrete data by evaluating its decision. *)
Ltac by_evaluation := apply (bool_decide_unpack _); vm_compute; exact I.

Lemma sample_camera_reachable : @reachable sample_driver sample_camera.
Proof. exists fresh_context, [], []. reflexivity. Qed.

(** C1: on the sample camera, promoting the sample drawable twice leaves one
    entry with one group in the static index, the group of the second
    promotion, while the vertex buffer and the vertex array of the first
    promotion are still alive in the context: the entry is overwritten and
    [release_render_group] is not called on the groups it held. *)
Theorem second_promotion_leaves_first_buffers_alive :
  (static_mobject_to_render_group_list promoted_once
   = {[ 7 := [first_group] ]})
  /\ (static_mobject_to_render_group_list promoted_twice
      = {[ 7 := [second_group] ]})
  /\ vbo first_group ∈ live (ctx promoted_twice)
  /\ vao first_group ∈ live (ctx promoted_twice)
  /\ (vbo first_group ∉ group_objects second_group)
  /\ (vao first_group ∉ group_objects second_group).
Proof.
  split; [vm_compute; reflexivity |].
  split; [vm_compute; reflexivity |].
  split; [by_evaluation |].
  split; [by_evaluation |].
  split; by_evaluation.
Qed.

(** The recoloured unit gets the program that the sample unit had compiled. *)
Lemma same_signature_at_sample :
  @get_shader_program sample_driver recoloured_unit programmed_camera
  = (Ok (Some (0, "3f"%string)), programmed_camera).
Proof.
  apply (proj1 (@same_signature_compiles_once sample_driver
                  sample_camera sample_unit recoloured_unit
                  (Some (0, "3f"%string)) programmed_camera
                  eq_refl eq_refl)).
Defined.

(** "a.png" gets slot 0 twice, and slot 1 after a release. *)
Lemma texture_slot_at_sample :
  @get_texture_id sample_driver "a.png"
    (snd (@get_texture_id sample_driver "a.png" sample_camera))
  = (Ok 0, snd (@get_texture_id sample_driver "a.png" sample_camera)).
Proof.
  apply (proj1 (@texture_slot_cached_then_renewed sample_driver
                  sample_camera "a.png" 0
                  (snd (@get_texture_id sample_driver "a.png" sample_camera))
                  sample_camera_reachable eq_refl)).
Defined.

(** The null unit resolves to no program on the sample camera. *)
Lemma null_signature_at_sample :
  @get_shader_program sample_driver null_unit sample_camera
  = (Ok None, sample_camera).
Proof.
  apply (proj1 (proj2 (@null_signature_never_compiles sample_driver))
           sample_camera null_unit sample_camera_reachable eq_refl).
Defined.

(** The timed unit has no texture uniforms and offers "color", which
    program 0 of the programmed camera has, and "time", which it has not:
    the call returns without an exception, "color" is bound to the value
    offered, as a tuple, and the slot of "time" stays unset. *)
Lemma value_uniforms_at_sample :
  exists c2,
    @set_shader_uniforms sample_driver 0 timed_unit programmed_camera
    = (Ok tt, c2)
    /\ uniform_values (ctx c2) !! (0, "color"%string)
       = Some (VTuple [1%R; 0%R; 0%R])
    /\ uniform_values (ctx c2) !! (0, "time"%string) = None.
Proof.
  destruct (@absent_value_uniforms_are_skipped sample_driver 0 timed_unit
              programmed_camera programmed_camera
              (code sample_unit) {[ "color"%string ]} eq_refl eq_refl)
    as (c2 & Hc2 & Hslots).
  exists c2. split; [exact Hc2 |]. split.
  - rewrite (Hslots "color"%string). vm_compute. reflexivity.
  - rewrite (Hslots "time"%string). vm_compute. reflexivity.
Defined.

(** C8: the textured unit names the texture uniform "Texture", which
    program 0 of the programmed camera does not have.  The texture loop of
    [set_shader_uniforms] assigns [shader[name].value] outside the try block
    that guards the loop over the uniform values, so the call raises
    KeyError for the absent name instead of skipping it. *)
Theorem absent_texture_uniform_raises :
  (objects (ctx programmed_camera) !! 0
   = Some (Program (code sample_unit) {[ "color"%string ]}))
  /\ texture_paths textured_unit = [("Texture"%string, "a.png"%string)]
  /\ ("Texture"%string ∉ ({[ "color"%string ]} : gset string))
  /\ fst (@set_shader_uniforms sample_driver 0 textured_unit programmed_camera)
     = Raise (KeyError "Texture").
Proof.
  split; [reflexivity |]. split; [reflexivity |].
  split; [by_evaluation |].
  vm_compute. reflexivity.
Qed.

End CameraExamples.

(** * Further properties of the camera frame *)

Section FramePose.
Import CameraFrame.
Local Open Scope R_scope.
Context `{ops : SpaceOps}.

Lemma run_op_points o (f : t) : points (run_op o f) = points f.
Proof.
  destruct o;
    unfold run_op, reorient, set_theta, set_phi, set_gamma, rotate,
      increment_theta, increment_phi, increment_gamma;
    first [apply set_euler_angles_points | by rewrite refresh_points].
Qed.

Lemma run_op_focal o (f : t) : focal_distance (run_op o f) = focal_distance f.
Proof.
  destruct o;
    unfold run_op, reorient, set_theta, set_phi, set_gamma, rotate,
      increment_theta, increment_phi, increment_gamma;
    first [apply set_euler_angles_focal | by rewrite refresh_focal].
Qed.

Lemma run_op_matrix o (f : t) :
  inverse_camera_rotation_matrix (run_op o f)
  = matrix_of_triple (theta_of (run_op o f)) (phi_of (run_op o f))
      (gamma_of (run_op o f)).
Proof.
  destruct o;
    unfold run_op, reorient, set_theta, set_phi, set_gamma, rotate,
      increment_theta, increment_phi, increment_gamma;
    first [apply set_euler_angles_matrix | by rewrite refresh_matrix, refresh_theta, refresh_phi, refresh_gamma].
Qed.

(** X1: No pose-mutating call moves the frame: after any sequence of them the
    control points and the focal distance ratio are those of the start, and
    so are the width, the height, the shape, the centre and the focal
    distance read from them. *)
Theorem pose_calls_keep_geometry os : forall f : t,
  points (run_ops os f) = points f
  /\ focal_distance (run_ops os f) = focal_distance f
  /\ get_width (run_ops os f) = get_width f
  /\ get_height (run_ops os f) = get_height f
  /\ get_shape (run_ops os f) = get_shape f
  /\ get_center (run_ops os f) = get_center f
  /\ get_focal_distance (run_ops os f) = get_focal_distance f.
Proof.
  intros f.
  assert (Hp : points (run_ops os f) = points f).
  { revert f. induction os as [| o os IH]; intros f; [reflexivity |].
    change (run_ops (o :: os) f) with (run_ops os (run_op o f)).
    rewrite IH. apply run_op_points. }
  assert (Hd : focal_distance (run_ops os f) = focal_distance f).
  { clear Hp. revert f. induction os as [| o os IH]; intros f; [reflexivity |].
    change (run_ops (o :: os) f) with (run_ops os (run_op o f)).
    rewrite IH. apply run_op_focal. }
  assert (Hw : get_width (run_ops os f) = get_width f)
    by (unfold get_width, get_points; by rewrite Hp).
  assert (Hh : get_height (run_ops os f) = get_height f)
    by (unfold get_height, get_points; by rewrite Hp).
  repeat split; try done.
  - unfold get_shape. by rewrite Hw, Hh.
  - unfold get_center, get_points. by rewrite Hp.
  - unfold get_focal_distance. by rewrite Hh, Hd.
Qed.

(** X2: Every pose-mutating call, the increments and [rotate] included, leaves
    the stored inverse rotation matrix equal to the matrix of the triple it
    leaves stored; so does every non-empty sequence of such calls, whatever
    the matrix was at the start. *)
Theorem pose_calls_refresh_matrix :
  (forall o (f : t),
      inverse_camera_rotation_matrix (run_op o f)
      = matrix_of_triple (theta_of (run_op o f)) (phi_of (run_op o f))
          (gamma_of (run_op o f)))
  /\ (forall os o (f : t),
        let f' := run_ops (os ++ [o]) f in
        inverse_camera_rotation_matrix f'
        = matrix_of_triple (theta_of f') (phi_of f') (gamma_of f')).
Proof.
  split; [apply run_op_matrix |].
  intros os o f. cbv zeta. rewrite run_ops_snoc. apply run_op_matrix.
Qed.

(** X3: The three single-angle setters act on separate slots: applied in any
    order they give the frame that one [set_euler_angles] call with the three
    angles gives, a setter overrides an earlier increment of its angle, and
    repeating a [set_euler_angles] call changes nothing. *)
Theorem setters_compose a b g (f : t) :
  set_theta a (set_phi b (set_gamma g f))
  = set_euler_angles (Some a) (Some b) (Some g) RADIANS f
  /\ set_gamma g (set_phi b (set_theta a f))
     = set_euler_angles (Some a) (Some b) (Some g) RADIANS f
  /\ set_phi b (set_theta a f) = set_theta a (set_phi b f)
  /\ set_gamma g (set_theta a f) = set_theta a (set_gamma g f)
  /\ set_gamma g (set_phi b f) = set_phi b (set_gamma g f)
  /\ (forall d, set_theta a (increment_theta d f) = set_theta a f)
  /\ (forall d, set_phi b (increment_phi d f) = set_phi b f)
  /\ (forall d, set_gamma g (increment_gamma d f) = set_gamma g f)
  /\ (forall th ph ga u,
        set_euler_angles th ph ga u (set_euler_angles th ph ga u f)
        = set_euler_angles th ph ga u f).
Proof.
  destruct f as [p [[a0 b0] g0] m fd].
  repeat split; try reflexivity.
  intros [th |] [ph |] [ga |] u; reflexivity.
Qed.

Lemma clip_monotone a b lo hi : lo <= hi -> a <= b -> clip a lo hi <= clip b lo hi.
Proof.
  intros Hb Hab. unfold clip.
  destruct (Rlt_dec a lo), (Rlt_dec b lo); try lra;
    destruct (Rgt_dec a hi), (Rgt_dec b hi); lra.
Qed.

(** X4: [increment_phi] moves phi toward phi + d and never past it: a larger
    increment never gives a smaller phi, and from a phi in [0, PI] the new
    phi lies between the old phi and phi + d.  An increment of 0 leaves a
    phi in range where it is. *)
Theorem increment_phi_moves_toward_target :
  (forall (f : t) d1 d2,
      d1 <= d2 ->
      phi_of (increment_phi d1 f) <= phi_of (increment_phi d2 f))
  /\ (forall (f : t) d,
        phi_in_range (phi_of f) -> 0 <= d ->
        phi_of f <= phi_of (increment_phi d f) <= phi_of f + d)
  /\ (forall (f : t) d,
        phi_in_range (phi_of f) -> d <= 0 ->
        phi_of f + d <= phi_of (increment_phi d f) <= phi_of f)
  /\ (forall f : t,
        phi_in_range (phi_of f) -> phi_of (increment_phi 0 f) = phi_of f).
Proof.
  pose proof PI_nonneg as Hpi.
  split; [| split; [| split]].
  - intros f d1 d2 Hd. rewrite !increment_phi_phi.
    apply clip_monotone; lra.
  - intros f d [Hlo Hhi] Hd. rewrite increment_phi_phi. unfold clip.
    destruct (Rlt_dec (phi_of f + d) 0); [lra |].
    destruct (Rgt_dec (phi_of f + d) PI); lra.
  - intros f d [Hlo Hhi] Hd. rewrite increment_phi_phi. unfold clip.
    destruct (Rlt_dec (phi_of f + d) 0); [lra |].
    destruct (Rgt_dec (phi_of f + d) PI); lra.
  - intros f [Hlo Hhi]. rewrite increment_phi_phi, Rplus_0_r.
    apply clip_inside. lra.
Qed.

(** X5: [rotate] reads the pose from the stored matrix and not from the stored
    triple: with another triple in place it leaves the same angles and the
    same matrix.  The phi it stores is the angle in [0, PI] whose cosine is
    the clipped lower right entry of the combined matrix. *)
Theorem rotate_reads_the_matrix angle axis (f : t) :
  (forall e,
      euler_angles (rotate angle axis (set_angles e f))
      = euler_angles (rotate angle axis f)
      /\ inverse_camera_rotation_matrix (rotate angle axis (set_angles e f))
         = inverse_camera_rotation_matrix (rotate angle axis f))
  /\ phi_in_range (phi_of (rotate angle axis f))
  /\ cos (phi_of (rotate angle axis f))
     = clip (item2 (row2 (dot (inverse_camera_rotation_matrix f)
                            (rotation_matrix_transpose angle axis))))
            (-1) 1.
Proof.
  split; [| split].
  - intros e. destruct f as [p [[a0 b0] g0] m fd]. split; reflexivity.
  - apply rotate_phi.
  - unfold rotate. rewrite set_euler_angles_phi. simpl. unfold RADIANS.
    rewrite Rmult_1_r. apply cos_acos.
    apply clip_between. lra.
Qed.

(** X6: The readers index the control points without a check: [get_width] fails
    exactly when the frame has fewer than three points, [get_height],
    [get_shape] and [get_focal_distance] exactly when it has fewer than five,
    and [get_center] exactly when it has none. *)
Theorem readers_need_the_control_points (f : t) :
  (get_width f = None <-> (length (points f) < 3)%nat)
  /\ (get_height f = None <-> (length (points f) < 5)%nat)
  /\ (get_shape f = None <-> (length (points f) < 5)%nat)
  /\ (get_focal_distance f = None <-> (length (points f) < 5)%nat)
  /\ (get_center f = None <-> points f = []).
Proof.
  unfold get_shape, get_focal_distance, get_width, get_height, get_center,
    get_points, point_coord.
  destruct (points f) as [| [[x0 y0] z0] [| [[x1 y1] z1] [| [[x2 y2] z2]
    [| [[x3 y3] z3] [| [[x4 y4] z4] rest]]]]]; simpl;
    repeat split; intros; try lia; try discriminate; try done.
Qed.

End FramePose.

Section FramePoseExamples.
Import CameraFrame.
Local Open Scope R_scope.

(** From phi = 0, an increment of 1 ends between 0 and 1. *)
Lemma increment_phi_moves_at_sample :
  phi_of sample_frame <= phi_of (@increment_phi usual_ops 1 sample_frame)
  <= phi_of sample_frame + 1.
Proof.
  apply (proj1 (proj2 (@increment_phi_moves_toward_target usual_ops))).
  - rewrite sample_frame_phi. unfold phi_in_range. pose proof PI_RGT_0. lra.
  - lra.
Defined.

End FramePoseExamples.

(** ** The round trip of [rotate] *)

Section FrameRoundTrip.
Import CameraFrame.
Local Open Scope R_scope.

Ltac split_matrix :=
  repeat match goal with
         | |- (_, _) = (_, _) => apply f_equal2
         end.

Ltac open_matrix m :=
  let a00 := fresh "a00" in let a01 := fresh "a01" in let a02 := fresh "a02" in
  let a10 := fresh "a10" in let a11 := fresh "a11" in let a12 := fresh "a12" in
  let a20 := fresh "a20" in let a21 := fresh "a21" in let a22 := fresh "a22" in
  destruct m as [[[[a00 a01] a02] [[a10 a11] a12]] [[a20 a21] a22]].

Lemma dot_assoc (a b c : mat3) : dot (dot a b) c = dot a (dot b c).
Proof.
  open_matrix a. open_matrix b. open_matrix c.
  unfold dot, transpose, vdot. split_matrix; ring.
Qed.

Lemma transpose_dot (a b : mat3) :
  transpose (dot a b) = dot (transpose b) (transpose a).
Proof.
  open_matrix a. open_matrix b.
  unfold dot, transpose, vdot. split_matrix; ring.
Qed.

Lemma transpose_transpose (a : mat3) : transpose (transpose a) = a.
Proof. open_matrix a. reflexivity. Qed.

Lemma dot_I3_l (a : mat3) : dot I3 a = a.
Proof.
  open_matrix a. unfold dot, transpose, vdot, I3. split_matrix; ring.
Qed.

Lemma dot_I3_r (a : mat3) : dot a I3 = a.
Proof.
  open_matrix a. unfold dot, transpose, vdot, I3. split_matrix; ring.
Qed.

Lemma det_dot (a b : mat3) : det (dot a b) = det a * det b.
Proof.
  open_matrix a. open_matrix b.
  unfold dot, transpose, vdot, det. ring.
Qed.

Lemma det_transpose (a : mat3) : det (transpose a) = det a.
Proof. open_matrix a. unfold transpose, det. ring. Qed.

Lemma is_rotation_dot (a b : mat3) :
  is_rotation a -> is_rotation b -> is_rotation (dot a b).
Proof.
  intros (Ha1 & Ha2 & Ha3) (Hb1 & Hb2 & Hb3). repeat split.
  - rewrite transpose_dot, dot_assoc, <- (dot_assoc b), Hb1, dot_I3_l.
    exact Ha1.
  - rewrite transpose_dot, dot_assoc, <- (dot_assoc (transpose a)), Ha2,
      dot_I3_l.
    exact Hb2.
  - rewrite det_dot, Ha3, Hb3. ring.
Qed.

Lemma is_rotation_transpose (a : mat3) :
  is_rotation a -> is_rotation (transpose a).
Proof.
  intros (Ha1 & Ha2 & Ha3). repeat split.
  - by rewrite transpose_transpose.
  - by rewrite transpose_transpose.
  - by rewrite det_transpose.
Qed.

Lemma sin_cos_1 a : sin a * sin a + cos a * cos a = 1.
Proof. pose proof (sin2_cos2 a) as H. unfold Rsqr in H. exact H. Qed.

Lemma is_rotation_Rz_T a : is_rotation (Rz_T a).
Proof.
  pose proof (sin_cos_1 a) as H.
  unfold is_rotation, Rz_T, dot, transpose, vdot, det, I3.
  repeat split; split_matrix; nra.
Qed.

Lemma is_rotation_Rx_T a : is_rotation (Rx_T a).
Proof.
  pose proof (sin_cos_1 a) as H.
  unfold is_rotation, Rx_T, dot, transpose, vdot, det, I3.
  repeat split; split_matrix; nra.
Qed.

(** The matrix of a product of quaternions is the product of the matrices,
    in the opposite order. *)
Lemma matrix_qmul (p q : quat) :
  usual_matrix_from_quaternion (qmul p q)
  = dot (usual_matrix_from_quaternion q) (usual_matrix_from_quaternion p).
Proof.
  destruct p as [[[w1 x1] y1] z1]. destruct q as [[[w2 x2] y2] z2].
  unfold usual_matrix_from_quaternion, qmul, qconj, qvec, dot, transpose, vdot.
  split_matrix; ring.
Qed.

Lemma is_rotation_unit_quaternion (q : quat) :
  qnorm2 q = 1 -> is_rotation (usual_matrix_from_quaternion q).
Proof.
  destruct q as [[[w x] y] z]. unfold qnorm2. intros Hn.
  assert (Hn2 : (w * w + x * x + y * y + z * z)
                * (w * w + x * x + y * y + z * z) = 1)
    by (rewrite Hn; ring).
  assert (Hn3 : (w * w + x * x + y * y + z * z)
                * (w * w + x * x + y * y + z * z)
                * (w * w + x * x + y * y + z * z) = 1)
    by (rewrite Hn; ring).
  unfold is_rotation, usual_matrix_from_quaternion, qmul, qconj, qvec,
    dot, transpose, vdot, det, I3.
  repeat split; split_matrix;
    first [ ring
          | etransitivity; [| exact Hn2]; ring
          | etransitivity; [| exact Hn3]; ring ].
Qed.

Lemma half_angle_cos a : cos a = cos (a / 2) * cos (a / 2) - sin (a / 2) * sin (a / 2).
Proof. rewrite <- cos_2a. f_equal. field. Qed.

Lemma half_angle_sin a : sin a = 2 * sin (a / 2) * cos (a / 2).
Proof. rewrite <- sin_2a. f_equal. field. Qed.

Lemma matrix_axis_z a :
  usual_matrix_from_quaternion
    (usual_quaternion_from_angle_axis a (0, 0, 1) true)
  = Rz_T a.
Proof.
  unfold Rz_T. rewrite (half_angle_cos a), (half_angle_sin a).
  pose proof (sin_cos_1 (a / 2)) as H.
  unfold usual_matrix_from_quaternion, usual_quaternion_from_angle_axis,
    qmul, qconj, qvec.
  split_matrix; try ring.
  etransitivity; [| exact H]. ring.
Qed.

Lemma matrix_axis_x a :
  usual_matrix_from_quaternion
    (usual_quaternion_from_angle_axis a (1, 0, 0) true)
  = Rx_T a.
Proof.
  unfold Rx_T. rewrite (half_angle_cos a), (half_angle_sin a).
  pose proof (sin_cos_1 (a / 2)) as H.
  unfold usual_matrix_from_quaternion, usual_quaternion_from_angle_axis,
    qmul, qconj, qvec.
  split_matrix; try ring.
  etransitivity; [| exact H]. ring.
Qed.

Lemma matrix_of_triple_usual theta phi gamma :
  @matrix_of_triple usual_ops theta phi gamma
  = dot (Rz_T gamma) (dot (Rx_T phi) (Rz_T theta)).
Proof.
  unfold matrix_of_triple. cbn [quaternion_mult quaternion_from_angle_axis
    rotation_matrix_transpose_from_quaternion usual_ops OUT RIGHT].
  unfold usual_quaternion_mult. cbn [fold_left].
  by rewrite !matrix_qmul, matrix_axis_z, matrix_axis_z, matrix_axis_x.
Qed.

Lemma is_rotation_matrix_of_triple theta phi gamma :
  is_rotation (@matrix_of_triple usual_ops theta phi gamma).
Proof.
  rewrite matrix_of_triple_usual.
  apply is_rotation_dot; [apply is_rotation_Rz_T |].
  apply is_rotation_dot; [apply is_rotation_Rx_T | apply is_rotation_Rz_T].
Qed.

Lemma rotation_matrix_transpose_OUT a :
  usual_rotation_matrix_transpose a (0, 0, 1) = Rz_T a.
Proof.
  unfold usual_rotation_matrix_transpose, Rz_T.
  destruct (Req_dec_T 0 0) as [_ | Hne]; [| by destruct Hne].
  destruct (Rgt_dec 1 0) as [_ | Hle]; [| lra].
  split_matrix; ring.
Qed.

Lemma normalize_unit (v : vec3) :
  let '(x, y, z) := v in
  x * x + y * y + z * z <> 0 ->
  let '(nx, ny, nz) := normalize v in nx * nx + ny * ny + nz * nz = 1.
Proof.
  destruct v as [[x y] z]. intros Hne. unfold normalize.
  assert (Hpos : 0 < x * x + y * y + z * z) by nra.
  pose proof (sqrt_lt_R0 _ Hpos) as Hs.
  pose proof (sqrt_sqrt (x * x + y * y + z * z) (Rlt_le _ _ Hpos)) as Hss.
  destruct (Rgt_dec (sqrt (x * x + y * y + z * z)) 0) as [_ | Hn]; [| lra].
  set (n := sqrt (x * x + y * y + z * z)) in *.
  replace (x / n * (x / n) + y / n * (y / n) + z / n * (z / n))
    with ((x * x + y * y + z * z) / (n * n)) by (field; lra).
  rewrite Hss. field. lra.
Qed.

Lemma rotation_matrix_transpose_RIGHT a :
  usual_rotation_matrix_transpose a (1, 0, 0) = Rx_T a.
Proof.
  unfold usual_rotation_matrix_transpose.
  destruct (Req_dec_T 1 0) as [Heq | _]; [lra |].
  rewrite <- matrix_axis_x. f_equal.
  unfold usual_quaternion_from_angle_axis, normalize.
  replace (1 * 1 + 0 * 0 + 0 * 0) with 1 by ring. rewrite sqrt_1.
  destruct (Rgt_dec 1 0) as [_ | Hle]; [| lra].
  split_matrix; field.
Qed.

Lemma is_rotation_from_angle_axis a (v : vec3) :
  (let '(x, y, z) := v in x * x + y * y + z * z <> 0) ->
  is_rotation (usual_matrix_from_quaternion
                 (usual_quaternion_from_angle_axis a v false)).
Proof.
  intros Hne. apply is_rotation_unit_quaternion.
  unfold usual_quaternion_from_angle_axis.
  pose proof (normalize_unit v) as Hu.
  destruct v as [[x y] z]. specialize (Hu Hne).
  destruct (normalize (x, y, z)) as [[nx ny] nz].
  unfold qnorm2. pose proof (sin_cos_1 (a / 2)) as H.
  replace (cos (a / 2) * cos (a / 2)
           + sin (a / 2) * nx * (sin (a / 2) * nx)
           + sin (a / 2) * ny * (sin (a / 2) * ny)
           + sin (a / 2) * nz * (sin (a / 2) * nz))
    with (cos (a / 2) * cos (a / 2)
          + sin (a / 2) * sin (a / 2) * (nx * nx + ny * ny + nz * nz))
    by ring.
  rewrite Hu. lra.
Qed.

Lemma is_rotation_rotation_matrix_transpose a (axis : vec3) :
  is_rotation (usual_rotation_matrix_transpose a axis).
Proof.
  destruct axis as [[x y] z]. unfold usual_rotation_matrix_transpose.
  destruct (Req_dec_T x 0) as [Hx | Hx].
  - destruct (Req_dec_T y 0) as [Hy | Hy].
    + pose proof (sin_cos_1 a) as H.
      destruct (Rgt_dec z 0);
        unfold is_rotation, dot, transpose, vdot, det, I3;
        repeat split; split_matrix; nra.
    + apply is_rotation_from_angle_axis. nra.
  - apply is_rotation_from_angle_axis. nra.
Qed.

Lemma atan_ratio x y s :
  0 < s -> s * s = x * x ->
  sqrt (x * x + y * y) * cos (atan (y / x)) = s
  /\ sqrt (x * x + y * y) * sin (atan (y / x)) = y / x * s.
Proof.
  intros Hs Hsx.
  assert (Hx : x <> 0) by nra.
  assert (Hpos : 0 < x * x + y * y) by nra.
  pose proof (sqrt_lt_R0 _ Hpos) as Hr.
  pose proof (sqrt_sqrt _ (Rlt_le _ _ Hpos)) as Hrr.
  set (r := sqrt (x * x + y * y)) in *.
  assert (Hroot : sqrt (1 + (y / x)²) = r / s).
  { apply sqrt_lem_1.
    - unfold Rsqr. nra.
    - apply Rlt_le, Rdiv_lt_0_compat; assumption.
    - unfold Rsqr.
      replace (r / s * (r / s)) with ((r * r) / (s * s)) by (field; lra).
      rewrite Hrr, Hsx. field. exact Hx. }
  rewrite cos_atan, sin_atan, Hroot. split; field; lra.
Qed.

(** The angle of a planar vector, by its cosine and sine. *)
Lemma angle_of_vector_spec x y rest :
  sqrt (x * x + y * y) * cos (usual_angle_of_vector (x :: y :: rest)) = x
  /\ sqrt (x * x + y * y) * sin (usual_angle_of_vector (x :: y :: rest)) = y.
Proof.
  unfold usual_angle_of_vector.
  destruct (Rgt_dec x 0) as [Hx | Hx].
  { destruct (atan_ratio x y x) as [Hc Hs]; [lra | ring |].
    split; [exact Hc |]. rewrite Hs. field. lra. }
  destruct (Rlt_dec x 0) as [Hx' | Hx'].
  { destruct (atan_ratio x y (- x)) as [Hc Hs]; [lra | ring |].
    destruct (Rle_dec 0 y) as [Hy | Hy].
    - rewrite neg_cos, neg_sin. split.
      + rewrite Ropp_mult_distr_r_reverse, Hc. ring.
      + rewrite Ropp_mult_distr_r_reverse, Hs. field. lra.
    - replace (atan (y / x) - PI) with (- (- atan (y / x) + PI)) by ring.
      rewrite cos_neg, sin_neg, neg_cos, neg_sin, cos_neg, sin_neg. split.
      + rewrite Ropp_mult_distr_r_reverse, Hc. ring.
      + rewrite !Ropp_involutive, Ropp_mult_distr_r_reverse, Hs. field. lra. }
  assert (Hx0 : x = 0) by lra. subst x.
  replace (0 * 0 + y * y) with (y * y) by ring.
  destruct (Rgt_dec y 0) as [Hy | Hy].
  { rewrite cos_PI2, sin_PI2, sqrt_square by lra. split; ring. }
  destruct (Rlt_dec y 0) as [Hy' | Hy'].
  { rewrite cos_neg, sin_neg, cos_PI2, sin_PI2.
    replace (y * y) with ((- y) * (- y)) by ring.
    rewrite sqrt_square by lra. split; ring. }
  assert (Hy0 : y = 0) by lra. subst y.
  replace (0 * 0) with 0 by ring. rewrite sqrt_0. split; ring.
Qed.

Ltac rotation_equations H :=
  let H1 := fresh "Hrows" in
  let H2 := fresh "Hcols" in
  let H3 := fresh "Hdet" in
  destruct H as (H1 & H2 & H3);
  unfold dot, transpose, vdot, I3 in H1, H2; unfold det in H3;
  injection H1 as ? ? ? ? ? ? ? ? ?;
  injection H2 as ? ? ? ? ? ? ? ? ?.

(** A rotation whose last row is the z axis is a rotation about z, by the
    angle of its first column. *)
Lemma rotation_about_z (X : mat3) :
  is_rotation X -> row2 X = (0, 0, 1) ->
  Rz_T (usual_angle_of_vector (col0 X)) = transpose X.
Proof.
  intros HX Hrow. open_matrix X. unfold row2 in Hrow. simpl in Hrow.
  injection Hrow as -> -> ->.
  rotation_equations HX.
  assert (Ha02 : a02 = 0) by nra.
  assert (Ha12 : a12 = 0) by nra.
  subst a02 a12.
  assert (Hd : a00 * a11 - a01 * a10 = 1) by (rewrite <- Hdet; ring).
  assert (Hsq : (a00 - a11)² + (a10 + a01)² = 0).
  { unfold Rsqr.
    transitivity ((a00 * a00 + a01 * a01) + (a10 * a10 + a11 * a11)
                  - 2 * (a00 * a11 - a01 * a10)); [ring | lra]. }
  apply Rplus_sqr_eq_0 in Hsq as [Ha11 Ha01].
  assert (Ha11' : a11 = a00) by lra.
  assert (Ha01' : a01 = - a10) by lra.
  subst a11 a01.
  assert (Hunit : a00 * a00 + a10 * a10 = 1) by lra.
  unfold col0, Rz_T, transpose.
  destruct (angle_of_vector_spec a00 a10 [0]) as [Hc Hs].
  rewrite Hunit, sqrt_1, Rmult_1_l in Hc, Hs.
  rewrite Hc, Hs. reflexivity.
Qed.

Lemma row2_dot (a b : mat3) :
  row2 (dot a b)
  = (vdot (row2 a) (fst (fst (transpose b))),
     vdot (row2 a) (snd (fst (transpose b))),
     vdot (row2 a) (snd (transpose b))).
Proof. open_matrix a. open_matrix b. reflexivity. Qed.

(** Two rotations with the same last row differ by a rotation that keeps
    the z axis. *)
Lemma same_row2 (P N : mat3) :
  is_rotation N -> row2 P = row2 N ->
  row2 (dot P (transpose N)) = (0, 0, 1).
Proof.
  intros HN Hrow. rewrite row2_dot, Hrow, transpose_transpose.
  open_matrix N. rotation_equations HN.
  unfold row2, vdot. simpl. split_matrix; nra.
Qed.

(** The angles that [rotate] reads off the last row of a rotation matrix
    give that row back. *)
Lemma decomposed_row2 (N : mat3) :
  is_rotation N ->
  row2 (dot (Rx_T (acos (clip (item2 (row2 N)) (-1) 1)))
            (Rz_T (usual_angle_of_vector (take2 (row2 N)) + PI / 2)))
  = row2 N.
Proof.
  intros HN. open_matrix N. rotation_equations HN.
  cbv [row2 item2 take2 snd fst].
  assert (Hz : -1 <= a22 <= 1) by nra.
  assert (Hclip : clip a22 (-1) 1 = a22).
  { unfold clip. destruct (Rlt_dec a22 (-1)); [lra |].
    destruct (Rgt_dec a22 1); lra. }
  rewrite Hclip.
  destruct (angle_of_vector_spec a20 a21 []) as [Hc Hs].
  assert (Hr : sqrt (a20 * a20 + a21 * a21) = sin (acos a22)).
  { rewrite sin_acos by exact Hz. f_equal. unfold Rsqr. nra. }
  rewrite Hr in Hc, Hs.
  cbv [Rx_T Rz_T dot transpose vdot snd fst].
  rewrite sin_plus, cos_plus, cos_PI2, sin_PI2, (cos_acos a22 Hz).
  split_matrix;
    [etransitivity; [| exact Hc]; ring | etransitivity; [| exact Hs]; ring
    | ring].
Qed.

(** The round trip of [rotate]: the matrix of the triple that is read off a
    rotation matrix is that matrix. *)
Lemma decompose_rotation (N : mat3) :
  is_rotation N ->
  let Fz := row2 N in
  let phi := acos (clip (item2 Fz) (-1) 1) in
  let theta := usual_angle_of_vector (take2 Fz) + PI / 2 in
  let partial_rot_T := dot (usual_rotation_matrix_transpose phi (1, 0, 0))
                           (usual_rotation_matrix_transpose theta (0, 0, 1)) in
  let gamma := usual_angle_of_vector
                 (col0 (dot partial_rot_T (transpose N))) in
  @matrix_of_triple usual_ops theta phi gamma = N.
Proof.
  intros HN Fz phi theta partial_rot_T gamma.
  rewrite matrix_of_triple_usual.
  assert (HP : partial_rot_T = dot (Rx_T phi) (Rz_T theta)).
  { unfold partial_rot_T.
    by rewrite rotation_matrix_transpose_RIGHT, rotation_matrix_transpose_OUT. }
  assert (HProt : is_rotation partial_rot_T).
  { rewrite HP. apply is_rotation_dot;
      [apply is_rotation_Rx_T | apply is_rotation_Rz_T]. }
  assert (HX : is_rotation (dot partial_rot_T (transpose N))).
  { apply is_rotation_dot; [exact HProt | by apply is_rotation_transpose]. }
  assert (Hrow : row2 (dot partial_rot_T (transpose N)) = (0, 0, 1)).
  { apply same_row2; [exact HN |]. rewrite HP. by apply decomposed_row2. }
  unfold gamma. rewrite (rotation_about_z _ HX Hrow).
  rewrite transpose_dot, transpose_transpose, dot_assoc, <- HP.
  destruct HProt as (_ & Hcols & _). rewrite Hcols. apply dot_I3_r.
Qed.

Lemma constructed_matrix os (f0 : t) :
  let f := @run_ops usual_ops os (@refresh_rotation_matrix usual_ops f0) in
  inverse_camera_rotation_matrix f
  = @matrix_of_triple usual_ops (theta_of f) (phi_of f) (gamma_of f).
Proof.
  destruct os as [| o os] using rev_ind; cbv zeta.
  - unfold run_ops. cbn [fold_left].
    by rewrite refresh_matrix, refresh_theta, refresh_phi, refresh_gamma.
  - rewrite run_ops_snoc. apply run_op_matrix.
Qed.

Lemma rotate_of_rotation (f : t) angle axis :
  is_rotation (inverse_camera_rotation_matrix f) ->
  let f' := @rotate usual_ops angle axis f in
  @matrix_of_triple usual_ops (theta_of f') (phi_of f') (gamma_of f')
  = dot (inverse_camera_rotation_matrix f)
        (@rotation_matrix_transpose usual_ops angle axis)
  /\ inverse_camera_rotation_matrix f'
     = dot (inverse_camera_rotation_matrix f)
           (@rotation_matrix_transpose usual_ops angle axis).
Proof.
  intros Hrot f'.
  assert (Htriple :
    @matrix_of_triple usual_ops (theta_of f') (phi_of f') (gamma_of f')
    = dot (inverse_camera_rotation_matrix f)
          (@rotation_matrix_transpose usual_ops angle axis)).
  { unfold f', rotate.
    rewrite set_euler_angles_theta, set_euler_angles_phi,
      set_euler_angles_gamma.
    unfold stored, RADIANS. rewrite !Rmult_1_r.
    apply decompose_rotation.
    apply is_rotation_dot; [exact Hrot |].
    apply is_rotation_rotation_matrix_transpose. }
  split; [exact Htriple |].
  rewrite <- Htriple. unfold f', rotate. apply set_euler_angles_matrix.
Qed.

(** C3: [rotate] composes the inverse rotation matrix of the frame with the
    transposed matrix of the axis-angle rotation, reads the triple theta,
    phi, gamma off the product, and stores the triple.  The matrix
    recomputed from the stored triple is the product itself, and so is the
    matrix that the frame holds afterwards: for every frame that the
    constructor and any pose calls have produced, and more generally for
    every frame whose matrix is a rotation matrix, every angle and every
    axis.  The matrices are compared as matrices of real numbers, where the
    equality is exact. *)
Theorem rotate_round_trip :
  (forall (f0 : t) os angle axis,
     let f := @run_ops usual_ops os (@refresh_rotation_matrix usual_ops f0) in
     let f' := @rotate usual_ops angle axis f in
     @matrix_of_triple usual_ops (theta_of f') (phi_of f') (gamma_of f')
     = dot (inverse_camera_rotation_matrix f)
           (@rotation_matrix_transpose usual_ops angle axis)
     /\ inverse_camera_rotation_matrix f'
        = dot (inverse_camera_rotation_matrix f)
              (@rotation_matrix_transpose usual_ops angle axis))
  /\ (forall (f : t) angle axis,
        is_rotation (inverse_camera_rotation_matrix f) ->
        let f' := @rotate usual_ops angle axis f in
        @matrix_of_triple usual_ops (theta_of f') (phi_of f') (gamma_of f')
        = dot (inverse_camera_rotation_matrix f)
              (@rotation_matrix_transpose usual_ops angle axis)
        /\ inverse_camera_rotation_matrix f'
           = dot (inverse_camera_rotation_matrix f)
                 (@rotation_matrix_transpose usual_ops angle axis)).
Proof.
  split.
  - intros f0 os angle axis f. apply rotate_of_rotation.
    unfold f. rewrite constructed_matrix.
    apply is_rotation_matrix_of_triple.
  - intros f angle axis Hrot. by apply rotate_of_rotation.
Qed.

(** The sample frame holds the identity matrix, a rotation matrix; turned by
    1 about the y axis, the matrix of its new triple is the composed
    matrix. *)
Lemma rotate_round_trip_at_sample :
  @matrix_of_triple usual_ops
    (theta_of (@rotate usual_ops 1 (0, 1, 0) sample_frame))
    (phi_of (@rotate usual_ops 1 (0, 1, 0) sample_frame))
    (gamma_of (@rotate usual_ops 1 (0, 1, 0) sample_frame))
  = dot (inverse_camera_rotation_matrix sample_frame)
        (@rotation_matrix_transpose usual_ops 1 (0, 1, 0)).
Proof.
  apply (proj2 rotate_round_trip sample_frame 1 (0, 1, 0)).
  unfold sample_frame. rewrite refresh_matrix.
  apply is_rotation_matrix_of_triple.
Defined.

End FrameRoundTrip.

(** * Further properties of the camera *)

Section CameraResources.
Import Camera.
Context `{drv : Driver}.

Lemma released_nil (c : t) : released [] c = c.
Proof.
  unfold released. destruct c as [[n o l u tu d e] s pr pu nt pt]. simpl.
  unfold with_ctx, with_live. simpl. do 2 f_equal.
  apply difference_empty_L.
Qed.

Lemma live_released objs (c : t) o :
  o ∈ live (ctx (released objs c)) <-> o ∈ live (ctx c) /\ o ∉ objs.
Proof.
  change (live (ctx (released objs c)))
    with (live (ctx c) ∖ (list_to_set objs : gset nat)).
  by rewrite elem_of_difference, elem_of_list_to_set.
Qed.

Lemma released_app xs ys (c : t) :
  released ys (released xs c) = released (xs ++ ys) c.
Proof.
  unfold released, with_ctx, with_live. simpl. do 2 f_equal.
  rewrite list_to_set_app_L. apply difference_difference_l_L.
Qed.

Lemma released_twice objs (c : t) :
  released objs (released objs c) = released objs c.
Proof.
  unfold released, with_ctx, with_live. simpl. do 2 f_equal.
  apply difference_twice_L.
Qed.

Lemma release_render_group_state rg (c : t) :
  release_render_group rg c = (Ok tt, released (group_objects rg) c).
Proof.
  unfold release_render_group, bind, ctx_modify, modify, released,
    group_objects, with_ctx, with_live, release_object.
  destruct (ibo rg) as [b |]; simpl; do 3 f_equal;
    rewrite !difference_difference_l_L; f_equal;
    apply set_eq; intros o; rewrite !elem_of_union, !elem_of_singleton,
      ?elem_of_empty; tauto.
Qed.

Lemma for_each_release groups : forall c : t,
  for_each groups release_render_group c
  = (Ok tt, released (flat_map group_objects groups) c).
Proof.
  induction groups as [| rg groups IH]; intros c.
  - simpl. by rewrite released_nil.
  - simpl. unfold bind. rewrite release_render_group_state, IH.
    by rewrite released_app.
Qed.

Lemma for_each_release_lists (entries : list (nat * list render_group)) :
  forall c : t,
  for_each entries
    (fun '(_, rg_list) => for_each rg_list release_render_group) c
  = (Ok tt,
     released (flat_map (fun '(_, groups) => flat_map group_objects groups)
                 entries) c).
Proof.
  induction entries as [| [i groups] entries IH]; intros c.
  - simpl. by rewrite released_nil.
  - simpl. unfold bind. rewrite for_each_release, IH.
    by rewrite released_app.
Qed.

Lemma release_static_mobjects_state (c : t) :
  release_static_mobjects c
  = (Ok tt,
     with_static ∅
       (released (index_objects (static_mobject_to_render_group_list c)) c)).
Proof.
  unfold release_static_mobjects, bind, get, modify. simpl.
  rewrite for_each_release_lists. reflexivity.
Qed.

Lemma elem_of_index_objects o (m : gmap nat (list render_group)) :
  o ∈ index_objects m
  <-> exists i groups rg,
        m !! i = Some groups /\ rg ∈ groups /\ o ∈ group_objects rg.
Proof.
  unfold index_objects. rewrite list_elem_of_In, in_flat_map. split.
  - intros ([i groups] & Hin & Ho).
    apply in_flat_map in Ho as (rg & Hrg & Ho).
    exists i, groups, rg. split; [| split].
    + apply elem_of_map_to_list. by apply list_elem_of_In.
    + by apply list_elem_of_In.
    + by apply list_elem_of_In.
  - intros (i & groups & rg & Hm & Hrg & Ho).
    exists (i, groups). split.
    + apply list_elem_of_In. by apply elem_of_map_to_list.
    + apply in_flat_map. exists rg. split; by apply list_elem_of_In.
Qed.

(** X7: [release_render_group] always returns; it takes the vertex buffer, the
    index buffer if the group has one, and the vertex array out of the live
    objects and changes nothing else.  Releasing the same group again
    changes nothing. *)
Theorem release_render_group_effect rg (c : t) :
  release_render_group rg c = (Ok tt, released (group_objects rg) c)
  /\ (forall o,
        o ∈ live (ctx (released (group_objects rg) c))
        <-> o ∈ live (ctx c) /\ o ∉ group_objects rg)
  /\ release_render_group rg (released (group_objects rg) c)
     = (Ok tt, released (group_objects rg) c).
Proof.
  split; [apply release_render_group_state |]. split.
  - intros o. apply live_released.
  - by rewrite release_render_group_state, released_twice.
Qed.

(** X8: [release_static_mobjects] always returns.  It leaves the static index
    empty, no object of a group that the index held is alive afterwards,
    every other live object stays alive, and the program cache and the
    texture cache are untouched. *)
Theorem release_static_mobjects_effect (c : t) :
  exists c',
    release_static_mobjects c = (Ok tt, c')
    /\ static_mobject_to_render_group_list c' = ∅
    /\ (forall i groups rg o,
          static_mobject_to_render_group_list c !! i = Some groups ->
          rg ∈ groups -> o ∈ group_objects rg -> o ∉ live (ctx c'))
    /\ (forall o,
          o ∈ live (ctx c) ->
          o ∉ index_objects (static_mobject_to_render_group_list c) ->
          o ∈ live (ctx c'))
    /\ id_to_shader_program c' = id_to_shader_program c
    /\ path_to_texture c' = path_to_texture c
    /\ n_textures c' = n_textures c.
Proof.
  eexists. split; [apply release_static_mobjects_state |].
  split; [reflexivity |]. split; [| split; [| done]].
  - intros i groups rg o Hi Hrg Ho.
    change (o ∉ live (ctx (released
              (index_objects (static_mobject_to_render_group_list c)) c))).
    rewrite live_released.
    intros [_ Hout]. apply Hout. apply elem_of_index_objects. eauto 6.
  - intros o Hlive Hout.
    change (o ∈ live (ctx (released
              (index_objects (static_mobject_to_render_group_list c)) c))).
    by rewrite live_released.
Qed.

(** X9: [render] draws only after the uniforms are bound.  When
    [set_shader_uniforms] returns, the depth test is set as the unit asks,
    one draw of the group's vertex array is issued, and the group's objects
    are released exactly when the group is single-use.  When
    [set_shader_uniforms] raises, [render] raises the same exception from
    the same state: nothing is drawn and nothing is released, single-use or
    not. *)
Theorem render_draws_then_releases rg (c : t) :
  (forall c1,
      set_shader_uniforms (prog rg) (shader_wrapper_of rg) c = (Ok tt, c1) ->
      exists c2,
        render rg c = (Ok tt, c2)
        /\ events (ctx c2)
           = Draw (vao rg) (render_primitive (shader_wrapper_of rg))
             :: events (ctx c1)
        /\ depth_testing (ctx c2) = depth_test (shader_wrapper_of rg)
        /\ live (ctx c2)
           = (if single_use rg
              then live (ctx c1) ∖ list_to_set (group_objects rg)
              else live (ctx c1)))
  /\ (forall e c1,
        set_shader_uniforms (prog rg) (shader_wrapper_of rg) c = (Raise e, c1) ->
        render rg c = (Raise e, c1)).
Proof.
  split.
  - intros c1 Hu. unfold render, bind at 1. rewrite Hu.
    unfold bind, update_depth_test, ctx_modify, modify. simpl.
    destruct (single_use rg).
    + rewrite release_render_group_state. eexists. split; [reflexivity |].
      simpl. done.
    + eexists. split; [reflexivity |]. simpl. done.
  - intros e c1 Hu. unfold render, bind at 1. by rewrite Hu.
Qed.

(** *** Reading a successful call backwards *)

Lemma bind_ok {A B} (m : M A) (k : A -> M B) (c : t) b c' :
  bind m k c = (Ok b, c') ->
  exists a c1, m c = (Ok a, c1) /\ k a c1 = (Ok b, c').
Proof.
  unfold bind. destruct (m c) as [[a | e] c1]; [eauto | discriminate].
Qed.

Lemma map_m_ok {A B} (f : A -> M B) (P : A -> B -> Prop) :
  (forall x c y c', f x c = (Ok y, c') -> P x y) ->
  forall xs c ys c', map_m f xs c = (Ok ys, c') -> Forall2 P xs ys.
Proof.
  intros Hf. induction xs as [| x xs IH]; intros c ys c' Hm; simpl in Hm.
  - inversion Hm; subst. constructor.
  - apply bind_ok in Hm as (y & c1 & Hy & Hm).
    apply bind_ok in Hm as (ys' & c2 & Hys & Hm).
    inversion Hm; subst. constructor; [by eapply Hf | by eapply IH].
Qed.

(** *** Building a render group *)

Lemma indices_bytes_nil idx : indices_bytes idx = [] <-> idx = [].
Proof. destruct idx; simpl; split; intros; done. Qed.

Lemma get_shader_program_ok sw (c : t) entry c' :
  get_shader_program sw c = (Ok entry, c') ->
  id_to_shader_program c' !! get_program_id sw = Some entry.
Proof.
  intros Hcall.
  destruct (id_to_shader_program c !! get_program_id sw) as [e |] eqn:Hs.
  - rewrite (get_shader_program_cached sw c e Hs) in Hcall.
    by inversion Hcall; subst.
  - destruct (link_program (get_program_code sw)) as [members |] eqn:Hl.
    + rewrite (get_shader_program_compiles sw c members Hs Hl) in Hcall.
      inversion Hcall; subst. simpl. apply lookup_insert_eq.
    + rewrite (get_shader_program_rejected sw c Hs Hl) in Hcall.
      discriminate.
Qed.

(** A group that [get_render_group] returns carries the unit and the flag
    it was asked for.  Its vertex buffer has the identity that the context
    hands out next; it has an index buffer exactly when the unit has index
    data and the data is not empty; its program is the one cached for the
    unit's signature; and all its objects are alive. *)
Lemma get_render_group_shape sw single (c : t) rg c' :
  get_render_group sw single c = (Ok rg, c') ->
  shader_wrapper_of rg = sw
  /\ single_use rg = single
  /\ vbo rg = next_id (ctx c)
  /\ (ibo rg = None
      <-> vert_indices sw = None \/ vert_indices sw = Some [])
  /\ (exists vert_format,
        id_to_shader_program c' !! get_program_id sw
        = Some (Some (prog rg, vert_format)))
  /\ (forall o, o ∈ group_objects rg -> o ∈ live (ctx c')).
Proof.
  intros Hcall. unfold get_render_group in Hcall.
  apply bind_ok in Hcall as (b & c1 & Hvbo & Hcall).
  apply bind_ok in Hcall as (i & c2 & Hibo & Hcall).
  apply bind_ok in Hcall as (entry & c3 & Hprog & Hcall).
  destruct entry as [[p fmt] |]; [| discriminate].
  apply bind_ok in Hcall as (v & c4 & Hvao & Hcall).
  inversion Hcall; subst. simpl.
  inversion Hvbo; subst. clear Hvbo.
  assert (Hb : all_alive {[ next_id (ctx c) ]}
                 (with_ctx (snd (allocate (Buffer (vert_data sw)) (ctx c))) c)).
  { unfold all_alive. simpl. apply union_subseteq_l. }
  assert (Hi : (i = None <-> vert_indices sw = None \/ vert_indices sw = Some [])
               /\ all_alive ({[ next_id (ctx c) ]}
                             ∪ match i with Some x => {[ x ]} | None => ∅ end)
                    c2).
  { destruct (vert_indices sw) as [idx |].
    - destruct (indices_bytes idx) as [| byte0 bytes] eqn:Hbytes.
      + inversion Hibo; subst. apply indices_bytes_nil in Hbytes as ->.
        split; [tauto |]. by rewrite union_empty_r_L.
      + apply bind_ok in Hibo as (x & cx & Hx & Hibo).
        inversion Hibo; subst. inversion Hx; subst. split.
        * split; [discriminate |]. intros [? | Heq]; [discriminate |].
          inversion Heq; subst. discriminate.
        * unfold all_alive in *. simpl in *.
          apply union_least; [by apply union_subseteq_r' | ].
          apply union_subseteq_l.
    - inversion Hibo; subst. split; [tauto |]. by rewrite union_empty_r_L. }
  destruct Hi as [Hnone Hi].
  split; [reflexivity |]. split; [reflexivity |]. split; [reflexivity |].
  split; [exact Hnone |]. split.
  - exists fmt. inversion Hvao; subst. simpl.
    by apply (get_shader_program_ok sw c2).
  - assert (Hp : all_alive ({[ next_id (ctx c) ]}
                            ∪ match i with Some x => {[ x ]} | None => ∅ end)
                   c3).
    { replace c3 with (snd (get_shader_program sw c2)) by (by rewrite Hprog).
      by apply all_alive_get_shader_program. }
    inversion Hvao; subst. unfold all_alive in Hp. simpl.
    intros o Ho. unfold group_objects in Ho. simpl in Ho.
    apply elem_of_cons in Ho as [-> | Ho].
    { apply elem_of_union_r, Hp, elem_of_union_l. by apply elem_of_singleton. }
    apply elem_of_cons in Ho as [-> | Ho].
    { apply elem_of_union_l. by apply elem_of_singleton. }
    destruct i as [x |]; [| by apply elem_of_nil in Ho].
    apply list_elem_of_singleton in Ho as ->.
    apply elem_of_union_r, Hp, elem_of_union_r. by apply elem_of_singleton.
Qed.

(** X11: A unit with the null signature cannot be given a render group on a
    camera that the constructor and its methods have produced: the cache
    answers [None], unpacking it raises TypeError, and the vertex buffer
    that was created first is left alive with no group to release it
    through.  The caches and the static index are as before. *)
Theorem null_signature_group_raises sw single (c : t) :
  reachable c ->
  get_program_id sw = EmptyString ->
  exists c',
    get_render_group sw single c = (Raise TypeError, c')
    /\ next_id (ctx c) ∈ live (ctx c')
    /\ id_to_shader_program c' = id_to_shader_program c
    /\ static_mobject_to_render_group_list c'
       = static_mobject_to_render_group_list c
    /\ path_to_texture c' = path_to_texture c.
Proof.
  intros Hreach Hid.
  destruct (reachable_caches_ok c Hreach) as (Hnull & _).
  unfold get_render_group, bind at 1, ctx_buffer, ctx_create. simpl.
  unfold bind at 1.
  destruct (vert_indices sw) as [idx |];
    [destruct (indices_bytes idx) as [| byte0 bytes] |].
  - simpl. unfold bind.
    erewrite get_shader_program_cached by (rewrite Hid; exact Hnull).
    eexists. split; [reflexivity |]. simpl.
    repeat split. apply elem_of_union_l. by apply elem_of_singleton.
  - unfold bind at 1, ctx_create. simpl. unfold bind.
    erewrite get_shader_program_cached by (rewrite Hid; exact Hnull).
    eexists. split; [reflexivity |]. simpl.
    repeat split. apply elem_of_union_r, elem_of_union_l.
    by apply elem_of_singleton.
  - simpl. unfold bind.
    erewrite get_shader_program_cached by (rewrite Hid; exact Hnull).
    eexists. split; [reflexivity |]. simpl.
    repeat split. apply elem_of_union_l. by apply elem_of_singleton.
Qed.

End CameraResources.

Section CameraCaches.
Import Camera.
Context `{drv : Driver}.

(** X12: A program that the compiler rejects is not cached: the request raises
    the compiler's error, the cache and the live objects are as before, and
    the next request for the signature calls the compiler again and raises
    again. *)
Theorem rejected_program_is_not_cached sw (c : t) :
  id_to_shader_program c !! get_program_id sw = None ->
  link_program (get_program_code sw) = None ->
  let c1 := snd (get_shader_program sw c) in
  let c2 := snd (get_shader_program sw c1) in
  fst (get_shader_program sw c) = Raise (ShaderError (get_program_code sw))
  /\ id_to_shader_program c1 = id_to_shader_program c
  /\ live (ctx c1) = live (ctx c)
  /\ fst (get_shader_program sw c1) = Raise (ShaderError (get_program_code sw))
  /\ compile_calls c2
     = get_program_code sw :: get_program_code sw :: compile_calls c.
Proof.
  intros Hs Hl. cbv zeta.
  rewrite (get_shader_program_rejected sw c Hs Hl). simpl.
  rewrite (get_shader_program_rejected sw
             (with_ctx (log (CompileProgram (get_program_code sw)) (ctx c)) c)
             Hs Hl).
  simpl. done.
Qed.

(** X13: A texture whose image cannot be opened is not cached, but the slot
    counter has already been advanced when the image is opened: the request
    raises, the cache is as before, and the slot id is spent, so the next
    path to be loaded gets the slot after it. *)
Theorem unloadable_texture_spends_a_slot path (c : t) :
  path_to_texture c !! path = None ->
  open_image path = None ->
  let c1 := snd (get_texture_id path c) in
  fst (get_texture_id path c) = Raise (ImageError path)
  /\ path_to_texture c1 = path_to_texture c
  /\ n_textures c1 = S (n_textures c)
  /\ live (ctx c1) = live (ctx c)
  /\ (forall other im,
        path_to_texture c !! other = None ->
        open_image other = Some im ->
        fst (get_texture_id other c1) = Ok (S (n_textures c))).
Proof.
  intros Hs Ho. cbv zeta.
  rewrite (get_texture_id_fails path c Hs Ho). simpl.
  split; [reflexivity |]. split; [reflexivity |].
  split; [lia |]. split; [reflexivity |].
  intros other im Hother Him.
  rewrite (get_texture_id_loads other
             (with_ctx (log (OpenImage path) (ctx c))
                (with_n_textures (n_textures c + 1) c)) im Hother Him).
  simpl. f_equal. lia.
Qed.

(** X14: [release_texture] always returns.  On a path that is not cached it
    leaves the camera as it is.  On a cached path it removes the entry and
    releases the texture, leaves the other entries and the slot counter as
    they are, so the slot is not handed out again, and a second release of
    the path changes nothing more. *)
Theorem release_texture_effect path (c : t) :
  let c1 := snd (release_texture path c) in
  fst (release_texture path c) = Ok tt
  /\ (path_to_texture c !! path = None -> c1 = c)
  /\ path_to_texture c1 !! path = None
  /\ (forall other,
        other <> path -> path_to_texture c1 !! other = path_to_texture c !! other)
  /\ n_textures c1 = n_textures c
  /\ (forall tid texture,
        path_to_texture c !! path = Some (tid, texture) ->
        texture ∉ live (ctx c1))
  /\ release_texture path c1 = (Ok tt, c1).
Proof.
  cbv zeta. rewrite release_texture_state. simpl.
  assert (Hgone : forall c0 : t,
            path_to_texture c0 !! path = None ->
            with_textures (delete path (path_to_texture c0)) c0 = c0).
  { intros c0 H0. rewrite delete_id by exact H0. by destruct c0. }
  split; [reflexivity |]. split; [| split; [| split; [| split; [| split]]]].
  - intros Hs. rewrite Hs. by apply Hgone.
  - destruct (path_to_texture c !! path) as [[tid texture] |];
      simpl; apply lookup_delete_eq.
  - intros other Hne.
    destruct (path_to_texture c !! path) as [[tid texture] |];
      simpl; by apply lookup_delete_ne.
  - by destruct (path_to_texture c !! path) as [[tid texture] |].
  - intros tid texture Hs. rewrite Hs. simpl.
    rewrite elem_of_difference, elem_of_singleton. tauto.
  - rewrite release_texture_state.
    destruct (path_to_texture c !! path) as [[tid texture] |]; simpl;
      rewrite lookup_delete_eq; simpl; rewrite delete_delete_eq; reflexivity.
Qed.

End CameraCaches.

(** Walk through the control flow of a method with the rules for
    [preserves]: [special] is tried first on every goal, and a single state
    change is closed when the property reads the same before and after. *)
Ltac preserves_steps special :=
  repeat first
    [ special
    | match goal with
      | |- Camera.preserves _ (Camera.ret _) => apply preserves_ret
      | |- Camera.preserves _ (Camera.raise _) => apply preserves_raise
      | |- Camera.preserves _ Camera.get => apply preserves_get
      | |- Camera.preserves _ (Camera.except_KeyError_pass _) =>
          apply preserves_except
      | |- Camera.preserves _ (Camera.for_each _ _) =>
          apply preserves_for_each; intros ?; lazy beta
      | |- Camera.preserves _ (Camera.map_m _ _) =>
          apply preserves_map_m; intros ?; lazy beta
      | |- Camera.preserves _ (Camera.bind _ _) =>
          apply preserves_bind; [| intros ?; lazy beta]
      | |- Camera.preserves _ (match ?x with _ => _ end) => destruct x
      | |- Camera.preserves _ (Camera.modify _) =>
          let H := fresh in intros ? H; exact H
      | |- Camera.preserves _ (Camera.ctx_modify _) =>
          let H := fresh in intros ? H; exact H
      | |- Camera.preserves _ (Camera.ctx_create _) =>
          let H := fresh in intros ? H; exact H
      end ].

Ltac unfold_methods :=
  unfold Camera.render, Camera.update_depth_test,
    Camera.release_render_group, Camera.get_render_group,
    Camera.set_shader_uniforms, Camera.set_texture_uniforms,
    Camera.set_value_uniforms, Camera.program_set,
    Camera.get_shader_program, Camera.ctx_program,
    Camera.detect_program_format, Camera.ctx_buffer,
    Camera.ctx_vertex_array, Camera.init_shaders.

Ltac unfold_texture_methods :=
  unfold Camera.get_texture_id, Camera.release_texture,
    Camera.init_textures, Camera.image_open, Camera.ctx_texture.

Section CameraInvariants.
Import Camera.
Context `{drv : Driver}.

(** *** Texture slots *)

Lemma textures_ok_get_texture_id path : preserves textures_ok (get_texture_id path).
Proof.
  intros c [Hslot Hinj].
  destruct (path_to_texture c !! path) as [[tid texture] |] eqn:Hs.
  - rewrite (get_texture_id_cached path c tid texture Hs). by split.
  - destruct (open_image path) as [im |] eqn:Ho.
    + rewrite (get_texture_id_loads path c im Hs Ho). simpl. split.
      * intros q tid texture Hq. simpl in *.
        destruct (decide (path = q)) as [-> | Hne].
        -- rewrite lookup_insert_eq in Hq. inversion Hq; subst.
           split; [lia | apply lookup_insert_eq].
        -- rewrite lookup_insert_ne in Hq by exact Hne.
           destruct (Hslot q tid texture Hq) as [Hlt Hunit].
           split; [lia |]. rewrite lookup_insert_ne by lia. exact Hunit.
      * intros p q tid x y Hp Hq. simpl in *.
        destruct (decide (path = p)) as [Hep | Hnp];
          destruct (decide (path = q)) as [Heq | Hnq]; [congruence | | |].
        -- rewrite <- Hep, lookup_insert_eq in Hp.
           rewrite lookup_insert_ne in Hq by exact Hnq.
           inversion Hp; subst. destruct (Hslot q _ y Hq). lia.
        -- rewrite <- Heq, lookup_insert_eq in Hq.
           rewrite lookup_insert_ne in Hp by exact Hnp.
           inversion Hq; subst. destruct (Hslot p _ x Hp). lia.
        -- rewrite lookup_insert_ne in Hp by exact Hnp.
           rewrite lookup_insert_ne in Hq by exact Hnq. by eapply Hinj.
    + rewrite (get_texture_id_fails path c Hs Ho). simpl. split.
      * intros q tid texture Hq. simpl in *.
        destruct (Hslot q tid texture Hq). split; [lia | done].
      * exact Hinj.
Qed.

Lemma textures_ok_release_texture path : preserves textures_ok (release_texture path).
Proof.
  intros c [Hslot Hinj]. rewrite release_texture_state. simpl.
  assert (Hgoal : forall x,
            texture_units x = texture_units (ctx c) ->
            textures_ok (with_ctx x (with_textures
                                       (delete path (path_to_texture c)) c))).
  { intros x Hx. split; simpl.
    - intros q tid texture Hq. apply lookup_delete_Some in Hq as [_ Hq].
      rewrite Hx. exact (Hslot q tid texture Hq).
    - intros p q tid a b Hp Hq.
      apply lookup_delete_Some in Hp as [_ Hp].
      apply lookup_delete_Some in Hq as [_ Hq]. by eapply Hinj. }
  destruct (path_to_texture c !! path) as [[tid texture] |].
  - by apply Hgoal.
  - rewrite <- (with_ctx_same (with_textures (delete path (path_to_texture c)) c)).
    by apply Hgoal.
Qed.

Lemma textures_ok_init_textures : preserves textures_ok init_textures.
Proof.
  intros c _. split; simpl.
  - intros q tid texture. rewrite lookup_empty. discriminate.
  - intros p q tid a b. rewrite lookup_empty. discriminate.
Qed.

Ltac textures_leaf :=
  first [ apply textures_ok_get_texture_id
        | apply textures_ok_release_texture
        | apply textures_ok_init_textures ].

Lemma textures_ok_run_call k (c : t) : textures_ok c -> textures_ok (run_call k c).
Proof.
  intros Hc. destruct k; unfold run_call;
    try (match goal with |- textures_ok (snd (?m c)) =>
           cut (preserves textures_ok m); [intros Hm; by apply Hm |]
         end;
         first [ textures_leaf
               | unfold set_mobjects_as_static, release_static_mobjects;
                 unfold_methods; preserves_steps textures_leaf ]).
  exact Hc.
Qed.

Lemma textures_ok_new_camera x pu : textures_ok (new_camera x pu).
Proof.
  split; simpl.
  - intros q tid texture. rewrite lookup_empty. discriminate.
  - intros p q tid a b. rewrite lookup_empty. discriminate.
Qed.

(** X15: On every camera that the constructor and its methods have produced,
    each cached path has a slot id below the slot counter, the texture unit
    of that slot is bound to the path's texture, and no two cached paths
    have the same slot id. *)
Theorem cached_textures_have_their_own_unit (c : t) :
  reachable c ->
  (forall path tid texture,
      path_to_texture c !! path = Some (tid, texture) ->
      tid < n_textures c /\ texture_units (ctx c) !! tid = Some texture)
  /\ (forall p q tid x y,
        path_to_texture c !! p = Some (tid, x) ->
        path_to_texture c !! q = Some (tid, y) -> p = q).
Proof.
  intros (x & pu & ks & ->).
  cut (textures_ok (run_calls ks (new_camera x pu))); [done |].
  generalize (textures_ok_new_camera x pu).
  generalize (new_camera x pu). induction ks as [| k ks IH]; intros c Hc.
  - exact Hc.
  - apply (IH (run_call k c)). by apply textures_ok_run_call.
Qed.

End CameraInvariants.

Section CameraFootprints.
Import Camera.
Context `{drv : Driver}.

Ltac unfold_all_methods := unfold_methods; unfold_texture_methods.

Lemma set_shader_uniforms_keeps_programs shader sw m :
  preserves (fun c => id_to_shader_program c = m) (set_shader_uniforms shader sw).
Proof. unfold_all_methods. preserves_steps fail. Qed.

Lemma set_shader_uniforms_keeps_index shader sw m :
  preserves (fun c => static_mobject_to_render_group_list c = m)
    (set_shader_uniforms shader sw).
Proof. unfold_all_methods. preserves_steps fail. Qed.

Lemma set_shader_uniforms_keeps_perspective shader sw u :
  preserves (fun c => perspective_uniforms c = u) (set_shader_uniforms shader sw).
Proof. unfold_all_methods. preserves_steps fail. Qed.

Lemma set_shader_uniforms_keeps_compile_calls shader sw l :
  preserves (fun c => compile_calls c = l) (set_shader_uniforms shader sw).
Proof. unfold_all_methods. preserves_steps fail. Qed.

Lemma set_shader_uniforms_keeps_draw_calls shader sw l :
  preserves (fun c => draw_calls c = l) (set_shader_uniforms shader sw).
Proof. unfold_all_methods. preserves_steps fail. Qed.

Lemma set_shader_uniforms_keeps_alive shader sw X :
  preserves (all_alive X) (set_shader_uniforms shader sw).
Proof.
  unfold_all_methods.
  preserves_steps ltac:(apply all_alive_ctx_create).
Qed.

Lemma set_shader_uniforms_keeps_other_uniforms shader sw p name v :
  p <> shader ->
  preserves (fun c => uniform_values (ctx c) !! (p, name) = v)
    (set_shader_uniforms shader sw).
Proof.
  intros Hne. unfold_all_methods.
  preserves_steps ltac:(
    idtac;
    match goal with
    | |- preserves _ (ctx_modify (set_uniform _ _ _)) =>
        let H := fresh in
        intros ? H; simpl; rewrite lookup_insert_ne by congruence; exact H
    end).
Qed.

(** X16: Binding the uniforms of one program touches nothing else, whether the
    call returns or raises: the uniforms of every other program, the program
    cache, the static index and the perspective uniforms are as before,
    nothing is compiled, drawn or released. *)
Theorem set_shader_uniforms_footprint shader sw (c : t) :
  let c' := snd (set_shader_uniforms shader sw c) in
  (forall p name,
      p <> shader ->
      uniform_values (ctx c') !! (p, name) = uniform_values (ctx c) !! (p, name))
  /\ id_to_shader_program c' = id_to_shader_program c
  /\ static_mobject_to_render_group_list c'
     = static_mobject_to_render_group_list c
  /\ perspective_uniforms c' = perspective_uniforms c
  /\ compile_calls c' = compile_calls c
  /\ draw_calls c' = draw_calls c
  /\ live (ctx c) ⊆ live (ctx c').
Proof.
  cbv zeta. repeat split.
  - intros p name Hne.
    by apply (set_shader_uniforms_keeps_other_uniforms shader sw p name _ Hne c).
  - by apply (set_shader_uniforms_keeps_programs shader sw _ c).
  - by apply (set_shader_uniforms_keeps_index shader sw _ c).
  - by apply (set_shader_uniforms_keeps_perspective shader sw _ c).
  - by apply (set_shader_uniforms_keeps_compile_calls shader sw _ c).
  - by apply (set_shader_uniforms_keeps_draw_calls shader sw _ c).
  - apply (set_shader_uniforms_keeps_alive shader sw (live (ctx c)) c).
    unfold all_alive. reflexivity.
Qed.

End CameraFootprints.

Section CameraStaticIndex.
Import Camera.
Context `{drv : Driver}.

Lemma get_render_group_keeps_index sw single m :
  preserves (fun c => static_mobject_to_render_group_list c = m)
    (get_render_group sw single).
Proof. unfold_methods. preserves_steps fail. Qed.

Lemma keeps_index_result {A} (m : M A) (c : t) r c' :
  preserves (fun c0 => static_mobject_to_render_group_list c0
                       = static_mobject_to_render_group_list c) m ->
  m c = (r, c') ->
  static_mobject_to_render_group_list c' = static_mobject_to_render_group_list c.
Proof.
  intros Hm Hcall. specialize (Hm c eq_refl). by rewrite Hcall in Hm.
Qed.

Lemma promoted_groups units : forall (c : t) groups c',
  map_m (fun sw => get_render_group sw false) units c = (Ok groups, c') ->
  Forall2 (fun sw rg => shader_wrapper_of rg = sw /\ single_use rg = false)
    units groups
  /\ (forall rg o, rg ∈ groups -> o ∈ group_objects rg -> o ∈ live (ctx c'))
  /\ static_mobject_to_render_group_list c'
     = static_mobject_to_render_group_list c.
Proof.
  induction units as [| sw units IH]; intros c groups c' Hm; simpl in Hm.
  - inversion Hm; subst. split; [constructor |]. split; [| reflexivity].
    intros rg o Hrg. by apply elem_of_nil in Hrg.
  - apply bind_ok in Hm as (rg & c1 & Hrg & Hm).
    apply bind_ok in Hm as (rest & c2 & Hrest & Hm).
    inversion Hm; subst. clear Hm.
    destruct (IH c1 rest c' Hrest) as (Hall & Halive & Hindex).
    destruct (get_render_group_shape sw false c rg c1 Hrg)
      as (Hsw & Hflag & _ & _ & _ & Hlive).
    split; [by constructor |]. split.
    + intros rg' o Hin Ho. apply elem_of_cons in Hin as [-> | Hin].
      * assert (Hkeep : all_alive (list_to_set (group_objects rg)) c').
        { replace c' with (snd (map_m (fun sw0 => get_render_group sw0 false)
                                  units c1)) by (by rewrite Hrest).
          apply preserves_map_m.
          - intros sw0. apply all_alive_get_render_group.
          - intros x Hx. apply elem_of_list_to_set in Hx. by apply Hlive. }
        apply Hkeep. by apply elem_of_list_to_set.
      * by eapply Halive.
    + rewrite Hindex.
      eapply keeps_index_result; [| exact Hrg].
      apply get_render_group_keeps_index.
Qed.

Lemma promotion_keeps_entry mobjects i : forall (c : t),
  i ∉ map mob_id mobjects ->
  static_mobject_to_render_group_list (snd (set_mobjects_as_static mobjects c)) !! i
  = static_mobject_to_render_group_list c !! i.
Proof.
  induction mobjects as [| mob mobjects IH]; intros c Hi; [reflexivity |].
  apply not_elem_of_cons in Hi as [Hne Hi].
  unfold set_mobjects_as_static. simpl. unfold bind at 1.
  unfold bind at 1.
  destruct (map_m (fun sw => get_render_group sw false)
              (get_shader_wrapper_list mob) c) as [[groups | e] c1] eqn:Hm.
  - destruct (promoted_groups _ c groups c1 Hm) as (_ & _ & Hindex).
    simpl. fold (set_mobjects_as_static mobjects).
    rewrite (IH _ Hi). simpl. rewrite lookup_insert_ne by done.
    by rewrite Hindex.
  - simpl. f_equal. eapply keeps_index_result; [| exact Hm].
    apply preserves_map_m. intros sw. apply get_render_group_keeps_index.
Qed.

(** X17: When the promotion of one drawable returns, the static index holds
    under the drawable's identity a list with one persistent group per shader
    unit, in the order of the units, all of whose objects are alive; a
    drawable without shader units is registered with the empty list.  An
    identity that is not among the promoted drawables keeps its entry,
    whether the promotion returns or raises. *)
Theorem promotion_registers_groups :
  (forall mob (c c' : t),
      set_mobjects_as_static [mob] c = (Ok tt, c') ->
      exists groups,
        static_mobject_to_render_group_list c'
        = <[mob_id mob := groups]> (static_mobject_to_render_group_list c)
        /\ Forall2
             (fun sw rg => shader_wrapper_of rg = sw /\ single_use rg = false)
             (get_shader_wrapper_list mob) groups
        /\ (forall rg o,
              rg ∈ groups -> o ∈ group_objects rg -> o ∈ live (ctx c')))
  /\ (forall mobjects (c : t) i,
        i ∉ map mob_id mobjects ->
        static_mobject_to_render_group_list
          (snd (set_mobjects_as_static mobjects c)) !! i
        = static_mobject_to_render_group_list c !! i).
Proof.
  split.
  - intros mob c c' Hcall. unfold set_mobjects_as_static in Hcall.
    simpl in Hcall.
    apply bind_ok in Hcall as ([] & c2 & Hbody & Hcall).
    inversion Hcall; subst. clear Hcall.
    apply bind_ok in Hbody as (groups & c1 & Hm & Hbody).
    inversion Hbody; subst. clear Hbody.
    destruct (promoted_groups _ c groups c1 Hm) as (Hall & Halive & Hindex).
    exists groups. simpl. rewrite Hindex. done.
  - intros mobjects c i Hi. by apply promotion_keeps_entry.
Qed.

(** *** Only persistent groups are indexed *)

Lemma index_persistent_same (c c' : t) :
  static_mobject_to_render_group_list c' = static_mobject_to_render_group_list c ->
  index_persistent c -> index_persistent c'.
Proof. unfold index_persistent. intros ->. done. Qed.

Lemma index_persistent_promotion mobjects : forall c : t,
  index_persistent c ->
  index_persistent (snd (set_mobjects_as_static mobjects c)).
Proof.
  induction mobjects as [| mob mobjects IH]; intros c Hc; [exact Hc |].
  unfold set_mobjects_as_static. simpl. unfold bind at 1.
  unfold bind at 1.
  destruct (map_m (fun sw => get_render_group sw false)
              (get_shader_wrapper_list mob) c) as [[groups | e] c1] eqn:Hm.
  - destruct (promoted_groups _ c groups c1 Hm) as (Hall & _ & Hindex).
    simpl. fold (set_mobjects_as_static mobjects). apply IH.
    intros i l rg Hl Hrg. simpl in Hl.
    destruct (decide (mob_id mob = i)) as [Heq | Hne].
    + rewrite <- Heq, lookup_insert_eq in Hl. inversion Hl; subst.
      clear -Hall Hrg. induction Hall as [| sw rg0 units rest [_ Hf] _ IH'].
      * by apply elem_of_nil in Hrg.
      * apply elem_of_cons in Hrg as [-> | Hrg]; [exact Hf | by apply IH'].
    + rewrite lookup_insert_ne in Hl by exact Hne.
      rewrite Hindex in Hl. by eapply Hc.
  - simpl. eapply index_persistent_same; [| exact Hc].
    eapply keeps_index_result; [| exact Hm].
    apply preserves_map_m. intros sw. apply get_render_group_keeps_index.
Qed.

Lemma index_persistent_run_call k (c : t) :
  index_persistent c -> index_persistent (run_call k c).
Proof.
  intros Hc. destruct k; unfold run_call;
    try (apply index_persistent_promotion; exact Hc);
    try (rewrite release_static_mobjects_state; simpl;
         intros i l rg Hl; simpl in Hl; by rewrite lookup_empty in Hl);
    try (match goal with |- index_persistent (snd (?m c)) =>
           eapply index_persistent_same; [| exact Hc];
           cut (preserves
                  (fun c0 => static_mobject_to_render_group_list c0
                             = static_mobject_to_render_group_list c) m);
             [intros Hm; by apply Hm |]
         end;
         unfold_methods; unfold_texture_methods; preserves_steps fail).
  exact Hc.
Qed.

(** X18: On every camera that the constructor and its methods have produced,
    every group in the static index is persistent: [render] does not release
    it after drawing. *)
Theorem indexed_groups_are_persistent (c : t) i groups rg :
  reachable c ->
  static_mobject_to_render_group_list c !! i = Some groups ->
  rg ∈ groups ->
  single_use rg = false.
Proof.
  intros (x & pu & ks & ->).
  cut (index_persistent (run_calls ks (new_camera x pu)));
    [intros Hp; apply Hp |].
  assert (H0 : index_persistent (new_camera x pu)).
  { intros j l r Hl. simpl in Hl. by rewrite lookup_empty in Hl. }
  revert H0. generalize (new_camera x pu).
  induction ks as [| k ks IH]; intros c Hc; [exact Hc |].
  apply (IH (run_call k c)). by apply index_persistent_run_call.
Qed.

End CameraStaticIndex.

Section CameraCapture.
Import Camera.
Context `{drv : Driver}.

Lemma for_each_ok_inv {A} (I : t -> Prop) (body : A -> M unit) xs :
  (forall x c c', x ∈ xs -> I c -> body x c = (Ok tt, c') -> I c') ->
  forall c c', I c -> for_each xs body c = (Ok tt, c') -> I c'.
Proof.
  induction xs as [| x xs IH]; intros Hbody c c' Hc Hrun; simpl in Hrun.
  - by inversion Hrun; subst.
  - apply bind_ok in Hrun as ([] & c1 & Hx & Hrun).
    apply (IH (fun y c0 c0' Hy => Hbody y c0 c0' (list_elem_of_further _ _ _ Hy))
             c1 c'); [| exact Hrun].
    apply (Hbody x c c1); [apply list_elem_of_here | exact Hc | exact Hx].
Qed.

Lemma capture_inv_weaken B m G G' (c : t) :
  G ⊆ G' -> capture_inv B m G c -> capture_inv B m G' c.
Proof.
  intros Hsub (Hf & Hb & Hk & Hi). repeat split; try done.
  intros o Ho. destruct (Hk o Ho) as [? | [? | ?]]; auto.
Qed.

Lemma capture_inv_allocate B m G o (c : t) :
  capture_inv B m G c ->
  (next_id (ctx c) ∉ B)
  /\ capture_inv B m (G ∪ {[ next_id (ctx c) ]})
       (with_ctx (snd (allocate o (ctx c))) c)
  /\ (cache_kind (Some o) ->
      capture_inv B m G (with_ctx (snd (allocate o (ctx c))) c)).
Proof.
  intros (Hf & Hb & Hk & Hi).
  assert (Hnew : next_id (ctx c) ∉ live (ctx c)).
  { intros Hin. apply Hf in Hin. lia. }
  assert (Hold : forall o', o' ∈ live (ctx c) ->
            <[next_id (ctx c) := o]> (objects (ctx c)) !! o'
            = objects (ctx c) !! o').
  { intros o' Ho'. apply lookup_insert_ne. intros <-. done. }
  split; [| split].
  - intros Hin. apply Hnew. by apply Hb.
  - unfold capture_inv, ctx_fresh. simpl. repeat split.
    + intros o' Ho'. apply elem_of_union in Ho' as [Ho' | Ho'].
      * apply elem_of_singleton in Ho' as ->. lia.
      * apply Hf in Ho'. lia.
    + intros o' Ho'. apply elem_of_union_r. by apply Hb.
    + intros o' Ho'. apply elem_of_union in Ho' as [Ho' | Ho'].
      * right. left. by apply elem_of_union_r.
      * rewrite (Hold o' Ho').
        destruct (Hk o' Ho') as [? | [? | ?]]; auto.
        right. left. by apply elem_of_union_l.
    + exact Hi.
  - intros Hkind. unfold capture_inv, ctx_fresh. simpl. repeat split.
    + intros o' Ho'. apply elem_of_union in Ho' as [Ho' | Ho'].
      * apply elem_of_singleton in Ho' as ->. lia.
      * apply Hf in Ho'. lia.
    + intros o' Ho'. apply elem_of_union_r. by apply Hb.
    + intros o' Ho'. apply elem_of_union in Ho' as [Ho' | Ho'].
      * apply elem_of_singleton in Ho' as ->.
        right. right. by rewrite lookup_insert_eq.
      * rewrite (Hold o' Ho'). by apply Hk.
    + exact Hi.
Qed.

Lemma capture_inv_create_cache B m G o :
  cache_kind (Some o) -> preserves (capture_inv B m G) (ctx_create o).
Proof.
  intros Hkind c Hc.
  by apply (proj2 (proj2 (capture_inv_allocate B m G o c Hc))).
Qed.

Ltac capture_leaf :=
  idtac;
  match goal with
  | |- preserves (capture_inv _ _ _) (ctx_create (Texture _ _ _)) =>
      apply capture_inv_create_cache; exact I
  | |- preserves (capture_inv _ _ _) (ctx_create (Program _ _)) =>
      apply capture_inv_create_cache; exact I
  end.

Lemma capture_inv_set_shader_uniforms B m G shader sw :
  preserves (capture_inv B m G) (set_shader_uniforms shader sw).
Proof. unfold_methods. unfold_texture_methods. preserves_steps capture_leaf. Qed.

Lemma capture_inv_get_shader_program B m G sw :
  preserves (capture_inv B m G) (get_shader_program sw).
Proof. unfold_methods. preserves_steps capture_leaf. Qed.

Lemma capture_inv_released B m G objs (c : t) :
  (forall o, o ∈ objs -> o ∉ B) ->
  capture_inv B m G c ->
  capture_inv B m (G ∖ list_to_set objs) (released objs c).
Proof.
  intros Hout (Hf & Hb & Hk & Hi).
  unfold capture_inv, ctx_fresh. simpl. repeat split.
  - intros o Ho. apply elem_of_difference in Ho as [Ho _]. by apply Hf.
  - intros o Ho. apply elem_of_difference. split; [by apply Hb |].
    rewrite elem_of_list_to_set. intros Hin. by apply (Hout o).
  - intros o Ho. apply elem_of_difference in Ho as [Ho Hno].
    destruct (Hk o Ho) as [? | [? | ?]]; auto.
    right. left. by apply elem_of_difference.
  - exact Hi.
Qed.

Lemma capture_inv_render_persistent B m G rg :
  single_use rg = false -> preserves (capture_inv B m G) (render rg).
Proof.
  intros Hflag. unfold render. rewrite Hflag. cbv iota.
  unfold update_depth_test.
  preserves_steps ltac:(apply capture_inv_set_shader_uniforms).
Qed.

Lemma capture_inv_render_ephemeral B m rg (c c' : t) :
  single_use rg = true ->
  (forall o, o ∈ group_objects rg -> o ∉ B) ->
  capture_inv B m (list_to_set (group_objects rg)) c ->
  render rg c = (Ok tt, c') ->
  capture_inv B m ∅ c'.
Proof.
  intros Hflag Hout Hc Hrun. unfold render in Hrun.
  apply bind_ok in Hrun as ([] & c1 & Hu & Hrun).
  assert (H1 : capture_inv B m (list_to_set (group_objects rg)) c1).
  { replace c1 with (snd (set_shader_uniforms (prog rg) (shader_wrapper_of rg) c))
      by (by rewrite Hu).
    by apply capture_inv_set_shader_uniforms. }
  apply bind_ok in Hrun as ([] & c2 & Hd & Hrun).
  inversion Hd; subst. clear Hd.
  apply bind_ok in Hrun as ([] & c3 & Hl & Hrun).
  inversion Hl; subst. clear Hl.
  rewrite Hflag, release_render_group_state in Hrun. inversion Hrun; subst.
  apply (capture_inv_weaken B m
           (list_to_set (group_objects rg) ∖ list_to_set (group_objects rg))).
  - by rewrite difference_diag_L.
  - apply capture_inv_released; [exact Hout | exact H1].
Qed.

Lemma ctx_create_ok o (c : t) i c' :
  ctx_create o c = (Ok i, c') ->
  i = next_id (ctx c) /\ c' = with_ctx (snd (allocate o (ctx c))) c.
Proof. unfold ctx_create. simpl. intros Heq. by inversion Heq. Qed.

Lemma capture_inv_get_render_group B m sw single (c : t) rg c' :
  capture_inv B m ∅ c ->
  get_render_group sw single c = (Ok rg, c') ->
  capture_inv B m (list_to_set (group_objects rg)) c'
  /\ (forall o, o ∈ group_objects rg -> o ∉ B)
  /\ single_use rg = single.
Proof.
  intros Hc Hcall. unfold get_render_group in Hcall.
  apply bind_ok in Hcall as (b & c1 & Hvbo & Hcall).
  apply ctx_create_ok in Hvbo as [-> ->].
  destruct (capture_inv_allocate B m ∅ (Buffer (vert_data sw)) c Hc)
    as (Hb & H1 & _).
  apply bind_ok in Hcall as (i & c2 & Hibo & Hcall).
  assert (H2 : exists G,
             capture_inv B m G c2
             /\ (forall o, o ∈ G <-> o = next_id (ctx c) \/ ibo_is o i)
             /\ (forall o, ibo_is o i -> o ∉ B)).
  { destruct (vert_indices sw) as [idx |];
      [destruct (indices_bytes idx) as [| byte0 bytes] |].
    - inversion Hibo; subst. eexists. split; [exact H1 |]. split.
      + intros o. rewrite elem_of_union, elem_of_singleton, elem_of_empty.
        simpl. tauto.
      + by intros o [].
    - apply bind_ok in Hibo as (x & cx & Hx & Hibo).
      inversion Hibo; subst. apply ctx_create_ok in Hx as [-> ->].
      destruct (capture_inv_allocate B m _ (Buffer (byte0 :: bytes)) _ H1)
        as (Hb2 & H2 & _).
      eexists. split; [exact H2 |]. split.
      + intros o. rewrite !elem_of_union, !elem_of_singleton, elem_of_empty.
        simpl. tauto.
      + intros o Ho. simpl in Ho. by subst o.
    - inversion Hibo; subst. eexists. split; [exact H1 |]. split.
      + intros o. rewrite elem_of_union, elem_of_singleton, elem_of_empty.
        simpl. tauto.
      + by intros o []. }
  destruct H2 as (G & H2 & HG & HiB).
  apply bind_ok in Hcall as (entry & c3 & Hprog & Hcall).
  assert (H3 : capture_inv B m G c3).
  { replace c3 with (snd (get_shader_program sw c2)) by (by rewrite Hprog).
    by apply capture_inv_get_shader_program. }
  destruct entry as [[p fmt] |]; [| discriminate].
  apply bind_ok in Hcall as (v & c4 & Hvao & Hcall).
  apply ctx_create_ok in Hvao as [-> ->].
  destruct (capture_inv_allocate B m G
              (VertexArray p (next_id (ctx c)) fmt (vert_attributes sw) i)
              c3 H3) as (Hb4 & H4 & _).
  inversion Hcall; subst. clear Hcall.
  split; [| split; [| reflexivity]].
  - eapply capture_inv_weaken; [| exact H4].
    intros o Ho. apply elem_of_list_to_set.
    unfold group_objects. cbn [vbo vao ibo].
    apply elem_of_union in Ho as [Ho | Ho].
    + apply HG in Ho as [-> | Ho]; [apply list_elem_of_here |].
      do 2 apply list_elem_of_further.
      destruct i as [x |]; simpl in Ho; [| done].
      subst o. apply list_elem_of_here.
    + apply elem_of_singleton in Ho as ->.
      apply list_elem_of_further, list_elem_of_here.
  - intros o Ho. unfold group_objects in Ho. simpl in Ho.
    apply elem_of_cons in Ho as [-> | Ho]; [exact Hb |].
    apply elem_of_cons in Ho as [-> | Ho]; [exact Hb4 |].
    apply HiB. destruct i as [x |]; simpl.
    + by apply list_elem_of_singleton in Ho.
    + by apply elem_of_nil in Ho.
Qed.

(** The identities of a group are handed out in the order vertex buffer,
    index buffer, vertex array. *)
Lemma get_render_group_order sw single (c : t) rg c' :
  ctx_fresh (ctx c) ->
  get_render_group sw single c = (Ok rg, c') ->
  vbo rg < vao rg
  /\ (forall x, ibo rg = Some x -> vbo rg < x < vao rg).
Proof.
  intros Hfresh Hcall.
  assert (Hc : capture_inv (live (ctx c))
                 (static_mobject_to_render_group_list c) ∅ c).
  { split; [exact Hfresh |]. split; [done |]. split; [| done].
    intros o Ho. by left. }
  unfold get_render_group in Hcall.
  apply bind_ok in Hcall as (b & c1 & Hvbo & Hcall).
  apply ctx_create_ok in Hvbo as [-> ->].
  destruct (capture_inv_allocate _ _ ∅ (Buffer (vert_data sw)) c Hc)
    as (_ & H1 & _).
  apply bind_ok in Hcall as (i & c2 & Hibo & Hcall).
  assert (H2 : exists G,
             capture_inv (live (ctx c))
               (static_mobject_to_render_group_list c) G c2
             /\ next_id (ctx c) ∈ live (ctx c2)
             /\ (forall x, i = Some x ->
                   next_id (ctx c) < x /\ x ∈ live (ctx c2))).
  { destruct (vert_indices sw) as [idx |];
      [destruct (indices_bytes idx) as [| byte0 bytes] |].
    - inversion Hibo; subst. eexists. split; [exact H1 |]. split.
      + simpl. apply elem_of_union_l. by apply elem_of_singleton.
      + intros x Hx. discriminate.
    - apply bind_ok in Hibo as (x & cx & Hx & Hibo).
      inversion Hibo; subst. apply ctx_create_ok in Hx as [-> ->].
      destruct (capture_inv_allocate _ _ _ (Buffer (byte0 :: bytes)) _ H1)
        as (_ & H2 & _).
      eexists. split; [exact H2 |]. split.
      + simpl. apply elem_of_union_r, elem_of_union_l.
        by apply elem_of_singleton.
      + intros x Hx. inversion Hx; subst. simpl. split; [lia |].
        apply elem_of_union_l. by apply elem_of_singleton.
    - inversion Hibo; subst. eexists. split; [exact H1 |]. split.
      + simpl. apply elem_of_union_l. by apply elem_of_singleton.
      + intros x Hx. discriminate. }
  destruct H2 as (G & H2 & Hb & Hi).
  apply bind_ok in Hcall as (entry & c3 & Hprog & Hcall).
  assert (H3 : capture_inv (live (ctx c))
                 (static_mobject_to_render_group_list c) G c3).
  { replace c3 with (snd (get_shader_program sw c2)) by (by rewrite Hprog).
    by apply capture_inv_get_shader_program. }
  assert (Hlive : live (ctx c2) ⊆ live (ctx c3)).
  { replace c3 with (snd (get_shader_program sw c2)) by (by rewrite Hprog).
    apply (all_alive_get_shader_program (live (ctx c2)) sw c2).
    unfold all_alive. done. }
  destruct H3 as (Hf3 & _).
  destruct entry as [[p fmt] |]; [| discriminate].
  apply bind_ok in Hcall as (v & c4 & Hvao & Hcall).
  apply ctx_create_ok in Hvao as [-> ->].
  inversion Hcall; subst. clear Hcall. cbn [vbo vao ibo].
  split.
  - apply Hf3, Hlive, Hb.
  - intros x Hx. destruct (Hi x Hx) as [Hlt Hin]. split; [exact Hlt |].
    apply Hf3, Hlive, Hin.
Qed.

(** X10: A group that [get_render_group] returns carries the unit and the flag
    it was asked for.  Its vertex buffer has the identity that the context
    hands out next; it has an index buffer exactly when the unit has index
    data and the data is not empty; its program is the one cached for the
    unit's signature; and all its objects are alive.  On a context that
    hands out identities in increasing order the objects of the group are
    new: none of them was alive before the call, none has an identity that
    was handed out before, and they are pairwise distinct. *)
Theorem get_render_group_builds sw single (c : t) rg c' :
  get_render_group sw single c = (Ok rg, c') ->
  shader_wrapper_of rg = sw
  /\ single_use rg = single
  /\ vbo rg = next_id (ctx c)
  /\ (ibo rg = None
      <-> vert_indices sw = None \/ vert_indices sw = Some [])
  /\ (exists vert_format,
        id_to_shader_program c' !! get_program_id sw
        = Some (Some (prog rg, vert_format)))
  /\ (forall o, o ∈ group_objects rg -> o ∈ live (ctx c'))
  /\ (ctx_fresh (ctx c) ->
      NoDup (group_objects rg)
      /\ (forall o, o ∈ group_objects rg ->
            (o ∉ live (ctx c)) /\ next_id (ctx c) <= o)).
Proof.
  intros Hcall.
  destruct (get_render_group_shape sw single c rg c' Hcall)
    as (Hsw & Hflag & Hvbo & Hibo & Hprog & Hlive).
  do 6 (split; [assumption |]).
  intros Hfresh.
  destruct (get_render_group_order sw single c rg c' Hfresh Hcall)
    as [Hva Hib].
  assert (Hge : forall o, o ∈ group_objects rg -> next_id (ctx c) <= o).
  { intros o Ho. unfold group_objects in Ho.
    apply elem_of_cons in Ho as [-> | Ho]; [lia |].
    apply elem_of_cons in Ho as [-> | Ho]; [lia |].
    destruct (ibo rg) as [x |] eqn:Hx; [| by apply elem_of_nil in Ho].
    apply list_elem_of_singleton in Ho as ->.
    specialize (Hib x eq_refl). lia. }
  split.
  - unfold group_objects. destruct (ibo rg) as [x |] eqn:Hx.
    + specialize (Hib x eq_refl).
      repeat (constructor; [rewrite ?elem_of_cons, elem_of_nil; lia |]).
      constructor.
    + repeat (constructor; [rewrite ?elem_of_cons, elem_of_nil; lia |]).
      constructor.
  - intros o Ho. split; [| by apply Hge].
    intros Hin. apply Hfresh in Hin. apply Hge in Ho. lia.
Qed.

Lemma capture_inv_render_all B m mob (c c' : t) :
  (forall i groups rg, m !! i = Some groups -> rg ∈ groups ->
                       single_use rg = false) ->
  capture_inv B m ∅ c ->
  render_all mob c = (Ok tt, c') ->
  capture_inv B m ∅ c'.
Proof.
  intros Hpers Hc Hrun. unfold render_all, get_render_group_list in Hrun.
  apply bind_ok in Hrun as (source & c1 & Hsrc & Hrun).
  apply bind_ok in Hsrc as (c0 & c0' & Hget & Hsrc).
  inversion Hget; subst. clear Hget.
  assert (Hm : static_mobject_to_render_group_list c0' = m) by apply Hc.
  rewrite Hm in Hsrc. clear Hm.
  destruct (m !! mob_id mob) as [groups |] eqn:Hl;
    inversion Hsrc; subst; clear Hsrc.
  - revert Hc Hrun. apply for_each_ok_inv.
    intros rg c2 c2' Hrg H2 Hr.
    replace c2' with (snd (render rg c2)) by (by rewrite Hr).
    apply capture_inv_render_persistent; [by eapply Hpers | exact H2].
  - revert Hc Hrun. apply for_each_ok_inv.
    intros sw c2 c2' _ H2 Hr.
    apply bind_ok in Hr as (rg & c3 & Hg & Hr).
    destruct (capture_inv_get_render_group B m sw true c2 rg c3 H2 Hg)
      as (H3 & Hout & Hflag).
    by eapply capture_inv_render_ephemeral.
Qed.

Lemma render_all_keeps_perspective mob u :
  preserves (fun c => perspective_uniforms c = u) (render_all mob).
Proof.
  unfold render_all, get_render_group_list.
  unfold_methods. unfold_texture_methods. preserves_steps fail.
Qed.

(** X19: A capture that returns, on a camera whose static index holds only
    persistent groups, releases nothing that was alive before it and leaves
    behind nothing but programs and textures: every buffer and vertex array
    built for a drawable that is not in the static index has been released
    again.  The static index is as before and the perspective uniforms are
    the bundle of this capture. *)
Theorem capture_leaves_only_cached_objects pu mobjects (c c' : t) :
  ctx_fresh (ctx c) ->
  index_persistent c ->
  capture pu mobjects c = (Ok tt, c') ->
  live (ctx c) ⊆ live (ctx c')
  /\ (forall o,
        o ∈ live (ctx c') ->
        o ∈ live (ctx c) \/ cache_kind (objects (ctx c') !! o))
  /\ static_mobject_to_render_group_list c'
     = static_mobject_to_render_group_list c
  /\ perspective_uniforms c' = pu.
Proof.
  intros Hfresh Hpers Hrun. unfold capture in Hrun.
  apply bind_ok in Hrun as ([] & c1 & Hp & Hrun).
  inversion Hp; subst. clear Hp.
  assert (H0 : capture_inv (live (ctx c))
                 (static_mobject_to_render_group_list c) ∅
                 (with_perspective pu c)).
  { repeat split; try done. intros o Ho. by left. }
  assert (H1 : capture_inv (live (ctx c))
                 (static_mobject_to_render_group_list c) ∅ c').
  { revert H0 Hrun. apply for_each_ok_inv.
    intros mob c2 c2' _ H2 Hr.
    by apply (capture_inv_render_all _ _ mob c2 c2' Hpers). }
  destruct H1 as (_ & Hb & Hk & Hi).
  split; [exact Hb |]. split; [| split; [exact Hi |]].
  - intros o Ho. destruct (Hk o Ho) as [? | [Hp | ?]]; auto.
    by apply elem_of_empty in Hp.
  - replace c' with (snd (for_each mobjects render_all (with_perspective pu c)))
      by (by rewrite Hrun).
    apply (preserves_for_each (fun c0 => perspective_uniforms c0 = pu));
      [| reflexivity].
    intros mob. apply render_all_keeps_perspective.
Qed.

Lemma render_keeps_index rg m :
  preserves (fun c => static_mobject_to_render_group_list c = m) (render rg).
Proof. unfold_methods. unfold_texture_methods. preserves_steps fail. Qed.

Lemma calls_after_draw v prim (c1 c2 : t) :
  events (ctx c2) = Draw v prim :: events (ctx c1) ->
  draw_calls c2 = (v, prim) :: draw_calls c1
  /\ compile_calls c2 = compile_calls c1.
Proof.
  intros Hev. unfold draw_calls, compile_calls. rewrite Hev.
  split; reflexivity.
Qed.

Lemma render_ok_draws rg (c c2 : t) :
  render rg c = (Ok tt, c2) ->
  draw_calls c2 = group_draw rg :: draw_calls c
  /\ compile_calls c2 = compile_calls c
  /\ static_mobject_to_render_group_list c2
     = static_mobject_to_render_group_list c.
Proof.
  intros Hrun.
  assert (Hindex : static_mobject_to_render_group_list c2
                   = static_mobject_to_render_group_list c).
  { replace c2 with (snd (render rg c)) by (by rewrite Hrun).
    by apply (render_keeps_index rg _ c). }
  pose proof Hrun as Hrun'. unfold render in Hrun'.
  apply bind_ok in Hrun' as ([] & c1 & Hu & _).
  destruct (proj1 (render_draws_then_releases rg c) c1 Hu)
    as (c2' & Hr & Hev & _).
  rewrite Hrun in Hr. inversion Hr; subst c2'. clear Hr.
  destruct (set_shader_uniforms_footprint (prog rg) (shader_wrapper_of rg) c)
    as (_ & _ & _ & _ & Hcc & Hdc & _).
  rewrite Hu in Hcc, Hdc. simpl in Hcc, Hdc.
  destruct (calls_after_draw _ _ c1 c2 Hev) as [Hd Hc].
  rewrite Hd, Hc, Hcc, Hdc. done.
Qed.

Lemma for_each_render_draws groups : forall c c' : t,
  for_each groups render c = (Ok tt, c') ->
  draw_calls c' = rev (map group_draw groups) ++ draw_calls c
  /\ compile_calls c' = compile_calls c
  /\ static_mobject_to_render_group_list c'
     = static_mobject_to_render_group_list c.
Proof.
  induction groups as [| rg groups IH]; intros c c' Hrun; simpl in Hrun.
  - by inversion Hrun; subst.
  - apply bind_ok in Hrun as ([] & c1 & Hr & Hrun).
    destruct (render_ok_draws rg c c1 Hr) as (Hd1 & Hc1 & Hi1).
    destruct (IH c1 c' Hrun) as (Hd & Hc & Hi).
    rewrite Hd, Hc, Hi, Hd1, Hc1, Hi1. simpl.
    by rewrite <- app_assoc.
Qed.

Lemma render_all_static_draws mobjects : forall c c' : t,
  (forall mob, mob ∈ mobjects ->
     is_Some (static_mobject_to_render_group_list c !! mob_id mob)) ->
  for_each mobjects render_all c = (Ok tt, c') ->
  draw_calls c'
  = rev (static_draws (static_mobject_to_render_group_list c) mobjects)
    ++ draw_calls c
  /\ compile_calls c' = compile_calls c
  /\ static_mobject_to_render_group_list c'
     = static_mobject_to_render_group_list c.
Proof.
  induction mobjects as [| mob mobjects IH]; intros c c' Hreg Hrun;
    simpl in Hrun.
  - by inversion Hrun; subst.
  - apply bind_ok in Hrun as ([] & c1 & Hmob & Hrun).
    destruct (Hreg mob (list_elem_of_here _ _)) as [groups Hl].
    unfold render_all, get_render_group_list, bind at 1, bind at 1, get
      in Hmob.
    rewrite Hl in Hmob. unfold ret at 1 in Hmob.
    destruct (for_each_render_draws groups c c1 Hmob) as (Hd1 & Hc1 & Hi1).
    assert (Hreg1 : forall mob0, mob0 ∈ mobjects ->
              is_Some (static_mobject_to_render_group_list c1 !! mob_id mob0)).
    { intros mob0 Hin. rewrite Hi1. apply Hreg.
      by apply list_elem_of_further. }
    destruct (IH c1 c' Hreg1 Hrun) as (Hd & Hc & Hi).
    rewrite Hd, Hc, Hi, Hi1, Hd1, Hc1. unfold static_draws. simpl.
    rewrite Hl. rewrite rev_app_distr, <- app_assoc. done.
Qed.

(** X20: A capture of drawables that are all in the static index, when it
    returns, has drawn the groups stored for them and nothing else: one draw
    per group, drawable after drawable in the order given and group after
    group in the stored order.  Nothing has been compiled. *)
Theorem capture_draws_static_groups_in_order pu mobjects (c c' : t) :
  (forall mob, mob ∈ mobjects ->
     is_Some (static_mobject_to_render_group_list c !! mob_id mob)) ->
  capture pu mobjects c = (Ok tt, c') ->
  draw_calls c'
  = rev (static_draws (static_mobject_to_render_group_list c) mobjects)
    ++ draw_calls c
  /\ compile_calls c' = compile_calls c.
Proof.
  intros Hreg Hrun. unfold capture in Hrun.
  apply bind_ok in Hrun as ([] & c1 & Hp & Hrun).
  inversion Hp; subst. clear Hp.
  destruct (render_all_static_draws mobjects (with_perspective pu c) c'
              Hreg Hrun) as (Hd & Hc & _).
  by split.
Qed.

End CameraCapture.

Section FurtherExamples.
Import Camera.

Ltac by_evaluation := apply (bool_decide_unpack _); vm_compute; exact I.

(** A frame with two control points has no width to read. *)
Lemma two_point_frame_has_no_width :
  CameraFrame.get_width CameraFrame.two_point_frame = None.
Proof.
  apply (proj2 (proj1 (readers_need_the_control_points
                         CameraFrame.two_point_frame))).
  simpl. lia.
Defined.

Lemma promoted_once_index :
  static_mobject_to_render_group_list promoted_once = {[ 7 := [first_group] ]}.
Proof. vm_compute. reflexivity. Qed.

Lemma promoted_once_lookup :
  static_mobject_to_render_group_list promoted_once !! 7 = Some [first_group].
Proof. rewrite promoted_once_index. apply lookup_singleton_eq. Qed.

Lemma promoted_once_reachable : @reachable sample_driver promoted_once.
Proof.
  exists fresh_context, [], [SetMobjectsAsStatic [sample_mobject]].
  reflexivity.
Qed.

Lemma promoted_once_persistent : index_persistent promoted_once.
Proof.
  intros i groups rg Hl Hrg. rewrite promoted_once_index in Hl.
  apply lookup_singleton_Some in Hl as [_ <-].
  by apply list_elem_of_singleton in Hrg as ->.
Qed.

Lemma promoted_once_fresh : ctx_fresh (ctx promoted_once).
Proof.
  intros o Ho. apply elem_of_elements in Ho.
  change (o ∈ elements (live (ctx promoted_once))) in Ho.
  assert (He : elements (live (ctx promoted_once)) = [2; 1; 0])
    by (vm_compute; reflexivity).
  rewrite He in Ho. change (next_id (ctx promoted_once)) with 3.
  repeat (apply elem_of_cons in Ho as [-> | Ho]; [lia |]).
  by apply elem_of_nil in Ho.
Qed.

(** After the first group of the promoted drawable is released, the program
    is still alive. *)
Lemma release_keeps_the_program :
  1 ∈ live (ctx (released (group_objects first_group) promoted_once)).
Proof.
  apply (proj1 (proj2 (release_render_group_effect first_group
                         promoted_once))).
  split; by_evaluation.
Defined.

(** After [release_static_mobjects] the vertex buffer of the promoted
    drawable is not alive. *)
Lemma release_static_at_sample :
  exists c',
    release_static_mobjects promoted_once = (Ok tt, c')
    /\ 0 ∉ live (ctx c').
Proof.
  destruct (release_static_mobjects_effect promoted_once)
    as (c' & Hrun & _ & Hdead & _).
  exists c'. split; [exact Hrun |].
  apply (Hdead 7 [first_group] first_group 0).
  - apply promoted_once_lookup.
  - apply list_elem_of_here.
  - apply list_elem_of_here.
Defined.

(** Rendering the persistent group of the promoted drawable returns. *)
Lemma render_at_sample :
  exists c2, @render sample_driver first_group promoted_once = (Ok tt, c2).
Proof.
  destruct (proj1 (@render_draws_then_releases sample_driver first_group
                     promoted_once)
              (snd (@set_shader_uniforms sample_driver 1 sample_unit
                      promoted_once)) eq_refl)
    as (c2 & Hrun & _).
  exists c2. exact Hrun.
Defined.

(** After one promotion the objects 0, 1 and 2 are alive.  The group built
    next for the sample unit has the vertex buffer 3 and the vertex array 4:
    two distinct objects, neither alive before the call. *)
Lemma get_render_group_at_sample :
  NoDup (group_objects
           {| vbo := 3; ibo := None; vao := 4; prog := 1;
              shader_wrapper_of := sample_unit; single_use := true |})
  /\ (forall o,
        o ∈ group_objects
              {| vbo := 3; ibo := None; vao := 4; prog := 1;
                 shader_wrapper_of := sample_unit; single_use := true |} ->
        (o ∉ live (ctx promoted_once)) /\ next_id (ctx promoted_once) <= o).
Proof.
  apply (proj2 (proj2 (proj2 (proj2 (proj2 (proj2
    (@get_render_group_builds sample_driver sample_unit true promoted_once
       {| vbo := 3; ibo := None; vao := 4; prog := 1;
          shader_wrapper_of := sample_unit; single_use := true |}
       (snd (@get_render_group sample_driver sample_unit true promoted_once))
       eq_refl))))))).
  exact promoted_once_fresh.
Defined.

(** The null unit gets no render group on the sample camera. *)
Lemma null_group_at_sample :
  exists c',
    @get_render_group sample_driver null_unit true sample_camera
    = (Raise TypeError, c').
Proof.
  destruct (@null_signature_group_raises sample_driver null_unit true
              sample_camera sample_camera_reachable eq_refl)
    as (c' & Hrun & _).
  exists c'. exact Hrun.
Defined.

(** The broken unit is rejected by the picky compiler. *)
Lemma rejected_program_at_sample :
  fst (@get_shader_program picky_driver broken_unit sample_camera)
  = Raise (ShaderError []).
Proof.
  apply (proj1 (@rejected_program_is_not_cached picky_driver broken_unit
                  sample_camera eq_refl eq_refl)).
Defined.

(** "b.png" cannot be opened. *)
Lemma unloadable_texture_at_sample :
  fst (@get_texture_id sample_driver "b.png" sample_camera)
  = Raise (ImageError "b.png").
Proof.
  apply (proj1 (@unloadable_texture_spends_a_slot sample_driver "b.png"
                  sample_camera eq_refl eq_refl)).
Defined.

(** Releasing a texture that was never requested changes nothing. *)
Lemma release_uncached_at_sample :
  snd (release_texture "a.png" sample_camera) = sample_camera.
Proof.
  apply (proj1 (proj2 (release_texture_effect "a.png" sample_camera))).
  reflexivity.
Defined.

(** After "a.png" has been loaded on the sample camera, slot 0 is below the
    counter and unit 0 holds the texture. *)
Lemma cached_texture_at_sample :
  let c := snd (@get_texture_id sample_driver "a.png" sample_camera) in
  0 < n_textures c /\ texture_units (ctx c) !! 0 = Some 0.
Proof.
  apply (proj1 (@cached_textures_have_their_own_unit sample_driver
                  (snd (@get_texture_id sample_driver "a.png" sample_camera))
                  (ex_intro _ fresh_context
                     (ex_intro _ []
                        (ex_intro _ [GetTextureId "a.png"] eq_refl))))
           "a.png" 0 0).
  vm_compute. reflexivity.
Defined.

(** Binding the uniforms of program 1 leaves the slot "color" of another
    program as it was. *)
Lemma other_program_untouched_at_sample :
  uniform_values
    (ctx (snd (@set_shader_uniforms sample_driver 1 sample_unit promoted_once)))
    !! (5, "color"%string)
  = uniform_values (ctx promoted_once) !! (5, "color"%string).
Proof.
  apply (proj1 (@set_shader_uniforms_footprint sample_driver 1 sample_unit
                  promoted_once) 5 "color"%string).
  lia.
Defined.

(** The promotion of the sample drawable registers its groups under 7. *)
Lemma promotion_at_sample :
  exists groups,
    static_mobject_to_render_group_list promoted_once
    = <[7 := groups]> (static_mobject_to_render_group_list sample_camera).
Proof.
  destruct (proj1 (@promotion_registers_groups sample_driver)
              sample_mobject sample_camera promoted_once eq_refl)
    as (groups & Hindex & _).
  exists groups. exact Hindex.
Defined.

(** The group registered for the sample drawable is persistent. *)
Lemma indexed_group_at_sample : single_use first_group = false.
Proof.
  apply (@indexed_groups_are_persistent sample_driver promoted_once 7
           [first_group] first_group promoted_once_reachable
           promoted_once_lookup).
  apply list_elem_of_here.
Defined.

(** A capture of the loose drawable on the promoted camera releases nothing
    that was alive. *)
Lemma capture_loose_at_sample :
  live (ctx promoted_once)
  ⊆ live (ctx (snd (@capture sample_driver [] [loose_mobject] promoted_once))).
Proof.
  apply (proj1 (@capture_leaves_only_cached_objects sample_driver []
                  [loose_mobject] promoted_once
                  (snd (@capture sample_driver [] [loose_mobject] promoted_once))
                  promoted_once_fresh promoted_once_persistent eq_refl)).
Defined.

(** A capture of the promoted drawable draws its one group. *)
Lemma capture_static_at_sample :
  draw_calls (snd (@capture sample_driver [] [sample_mobject] promoted_once))
  = rev (static_draws (static_mobject_to_render_group_list promoted_once)
           [sample_mobject])
    ++ draw_calls promoted_once.
Proof.
  apply (proj1 (@capture_draws_static_groups_in_order sample_driver []
                  [sample_mobject] promoted_once
                  (snd (@capture sample_driver [] [sample_mobject] promoted_once))
                  (fun mob Hin =>
                     eq_ind_r
                       (fun x => is_Some
                          (static_mobject_to_render_group_list promoted_once
                           !! mob_id x))
                       (ex_intro _ [first_group] promoted_once_lookup)
                       (proj1 (list_elem_of_singleton mob sample_mobject) Hin))
                  eq_refl)).
Defined.

End FurtherExamples.
